(** * pie: subprocess transport and shutdown protocol (pie.go)

    A shallow embedding of [start], [makeCommand], [ioPipe.Close],
    [ioPipe.closeProc] and [rwCloser.Close].

    The Go code talks to collaborators it does not implement (the pipes,
    the [exec.Cmd], the [os.Process]); every call to one of them is an
    event whose result is chosen by an environment.  [closeProc] starts
    a goroutine and races it against a timer, so programs run under a
    scheduler: a schedule is a list of choices (which thread moves, or
    the timer firing) and the semantics is an executable function of the
    environment and the schedule.  A method of [*os.Process] called
    through the nil pointer panics; [run] is the scheduler that stops
    there. *)

From stdpp Require Import base list strings.

(** * Part one: the model *)

(** ** Data model *)

(** Go's [error] is an interface value; [nil] is [None].  Three sorts of
    non-nil error values are told apart:
    - the package variable [errProcStopTimeout] (pie.go line 13),
    - a value made by [fmt.Errorf] (line 215), carrying its text,
    - a value handed back by a collaborator, carrying its text. *)
Inductive err : Type :=
| ProcStopTimeout
| Errorf (msg : string)
| Foreign (msg : string).

Definition error : Type := option err.

Definition errProcStopTimeout : err := ProcStopTimeout.

(** The [Error()] method: the text of an error value. *)
Definition Error (e : err) : string :=
  match e with
  | ProcStopTimeout => "process killed after timeout waiting for process to stop"
  | Errorf msg => msg
  | Foreign msg => msg
  end.

(** [fmt.Errorf("error killing process after timeout: %s", err)] *)
Definition killError (e : err) : err :=
  Errorf ("error killing process after timeout: " +:+ Error e).

(** Handles.  Streams and writers are identified by a number.  A value of
    type [*os.Process] is either the nil pointer or points at a started
    process; [exec.Cmd] values live in a store and a [commander] is a
    pointer into it. *)
Definition ReadCloser : Type := nat.
Definition WriteCloser : Type := nat.
Definition Writer : Type := nat.
Definition commander : Type := nat.
Definition chan : Type := nat.

Inductive osProcess : Type :=
| NilProcess
| Pid (pid : nat).

(** The fields of [exec.Cmd] the package touches. *)
Record Cmd : Type := mkCmd {
  Path : string;
  Args : list string;
  Stderr : option Writer;
  Process : osProcess
}.

(** [ioPipe] (lines 180-184) and [rwCloser] (lines 222-225). *)
Record ioPipe : Type := mkIoPipe {
  iopReadCloser : ReadCloser;
  iopWriteCloser : WriteCloser;
  proc : osProcess
}.

Record rwCloser : Type := mkRwCloser {
  rwReadCloser : ReadCloser;
  rwWriteCloser : WriteCloser
}.

(** ** Collaborator calls, events, environments *)

(** The methods of the interfaces [io.ReadCloser], [io.WriteCloser],
    [osProcess] (lines 172-176) and [commander] (lines 164-168) that the
    package calls.  [Signal] is always called with [os.Interrupt]. *)
Inductive call : Type :=
| ReadCloser_Close (r : ReadCloser)
| WriteCloser_Close (w : WriteCloser)
| Wait (p : osProcess)
| Kill (p : osProcess)
| Signal (p : osProcess)
| StdinPipe (c : commander)
| StdoutPipe (c : commander)
| Start (c : commander).

Inductive thread : Type :=
| Main
| Goroutine (i : nat).

Inductive event : Type :=
| EvCall (t : thread) (c : call) (r : error)   (* a call returned [r] *)
| EvMakeChan (ch : chan)                       (* make(chan error, 1) *)
| EvGo (i : nat)                               (* goroutine [i] started *)
| EvSend (i : nat) (ch : chan) (v : error)     (* goroutine [i]: ch <- v *)
| EvRecv (ch : chan) (v : error)               (* select took <-ch *)
| EvTimeout.                                   (* select took <-time.After *)

(** An environment answers every call, given everything that happened
    before: [answer] is the error returned, [handle] the pipe returned
    next to it by [StdinPipe]/[StdoutPipe], or the process created by a
    successful [Start]. *)
Record environment : Type := mkEnv {
  answer : list event → call → error;
  handle : list event → call → nat
}.

(** ** Programs *)

(** The body of a goroutine: calls and sends, no further spawning. *)
Inductive task : Type :=
| TDone
| TCall (c : call) (k : error → task)
| TSend (ch : chan) (v : error) (k : task).

(** The statements of the calling thread, in continuation-passing form. *)
Inductive prog (A : Type) : Type :=
| Ret (a : A)
| Call (c : call) (k : error → prog A)
| CallPipe (c : call) (k : nat → error → prog A)
| Command (path : string) (args : list string) (k : commander → prog A)
| SetStderr (c : commander) (w : Writer) (k : prog A)
| GetProcess (c : commander) (k : osProcess → prog A)
| MakeChan (k : chan → prog A)
| Go (t : task) (k : prog A)
| Select (ch : chan) (kr : error → prog A) (kt : prog A).

Arguments Ret {A} a.
Arguments Call {A} c k.
Arguments CallPipe {A} c k.
Arguments Command {A} path args k.
Arguments SetStderr {A} c w k.
Arguments GetProcess {A} c k.
Arguments MakeChan {A} k.
Arguments Go {A} t k.
Arguments Select {A} ch kr kt.

Fixpoint bind {A B : Type} (p : prog A) (f : A → prog B) : prog B :=
  match p with
  | Ret a => f a
  | Call c k => Call c (λ r, bind (k r) f)
  | CallPipe c k => CallPipe c (λ h r, bind (k h r) f)
  | Command path args k => Command path args (λ c, bind (k c) f)
  | SetStderr c w k => SetStderr c w (bind k f)
  | GetProcess c k => GetProcess c (λ p, bind (k p) f)
  | MakeChan k => MakeChan (λ ch, bind (k ch) f)
  | Go t k => Go t (bind k f)
  | Select ch kr kt => Select ch (λ v, bind (kr v) f) (bind kt f)
  end.

(** ** Configurations and the scheduler *)

Record config (A : Type) : Type := mkConfig {
  main : prog A;                 (* what the calling thread still has to do *)
  tasks : list task;             (* the goroutines started so far *)
  chans : list (option error);   (* one-slot buffers of the channels made *)
  cmds : list Cmd;               (* the store of exec.Cmd values *)
  trace : list event             (* what happened, oldest first *)
}.

Arguments mkConfig {A} main tasks chans cmds trace.
Arguments main {A} c.
Arguments tasks {A} c.
Arguments chans {A} c.
Arguments cmds {A} c.
Arguments trace {A} c.

Definition init {A : Type} (p : prog A) : config A := mkConfig p [] [] [] [].

Inductive choice : Type :=
| RunMain              (* the calling thread takes its next step *)
| RunGo (i : nat)      (* goroutine [i] takes its next step *)
| TimerFires.          (* the timer of the pending select fires *)

(** [exec.Cmd.Start] stores the new process in the command; no other call
    touches the store. *)
Definition setProcess (p : osProcess) (c : Cmd) : Cmd :=
  mkCmd (Path c) (Args c) (Stderr c) p.

Definition setStderr (w : Writer) (c : Cmd) : Cmd :=
  mkCmd (Path c) (Args c) (Some w) (Process c).

Definition after_call (c : call) (r : error) (h : nat) (store : list Cmd) : list Cmd :=
  match c, r with
  | Start cmd, None => alter (setProcess (Pid h)) cmd store
  | _, _ => store
  end.

(** One step of the calling thread. A receive needs a full buffer; when
    the buffer is empty the thread does not move. *)
Definition step_main {A : Type} (env : environment) (cfg : config A) : config A :=
  let tr := trace cfg in
  match main cfg with
  | Ret _ => cfg
  | Call c k =>
      let r := answer env tr c in
      mkConfig (k r) (tasks cfg) (chans cfg)
               (after_call c r (handle env tr c) (cmds cfg))
               (tr ++ [EvCall Main c r])
  | CallPipe c k =>
      let r := answer env tr c in
      mkConfig (k (handle env tr c) r) (tasks cfg) (chans cfg)
               (after_call c r (handle env tr c) (cmds cfg))
               (tr ++ [EvCall Main c r])
  | Command path args k =>
      mkConfig (k (length (cmds cfg))) (tasks cfg) (chans cfg)
               (cmds cfg ++ [mkCmd path args None NilProcess]) tr
  | SetStderr c w k =>
      mkConfig k (tasks cfg) (chans cfg) (alter (setStderr w) c (cmds cfg)) tr
  | GetProcess c k =>
      mkConfig (k (default NilProcess (Process <$> cmds cfg !! c)))
               (tasks cfg) (chans cfg) (cmds cfg) tr
  | MakeChan k =>
      let ch := length (chans cfg) in
      mkConfig (k ch) (tasks cfg) (chans cfg ++ [None]) (cmds cfg)
               (tr ++ [EvMakeChan ch])
  | Go t k =>
      mkConfig k (tasks cfg ++ [t]) (chans cfg) (cmds cfg)
               (tr ++ [EvGo (length (tasks cfg))])
  | Select ch kr kt =>
      match chans cfg !! ch with
      | Some (Some v) =>
          mkConfig (kr v) (tasks cfg) (<[ch := None]> (chans cfg)) (cmds cfg)
                   (tr ++ [EvRecv ch v])
      | _ => cfg
      end
  end.

(** The timer only matters while the calling thread sits in a select. *)
Definition step_timer {A : Type} (cfg : config A) : config A :=
  match main cfg with
  | Select ch kr kt =>
      mkConfig kt (tasks cfg) (chans cfg) (cmds cfg) (trace cfg ++ [EvTimeout])
  | _ => cfg
  end.

(** One step of goroutine [i].  A send on a channel of capacity one needs
    an empty buffer; when the buffer is full the goroutine does not
    move. *)
Definition step_go {A : Type} (env : environment) (i : nat) (cfg : config A) : config A :=
  let tr := trace cfg in
  match tasks cfg !! i with
  | Some (TCall c k) =>
      let r := answer env tr c in
      mkConfig (main cfg) (<[i := k r]> (tasks cfg)) (chans cfg)
               (after_call c r (handle env tr c) (cmds cfg))
               (tr ++ [EvCall (Goroutine i) c r])
  | Some (TSend ch v k) =>
      match chans cfg !! ch with
      | Some None =>
          mkConfig (main cfg) (<[i := k]> (tasks cfg)) (<[ch := Some v]> (chans cfg))
                   (cmds cfg) (tr ++ [EvSend i ch v])
      | _ => cfg
      end
  | _ => cfg
  end.

Definition step {A : Type} (env : environment) (c : choice) (cfg : config A) : config A :=
  match c with
  | RunMain => step_main env cfg
  | RunGo i => step_go env i cfg
  | TimerFires => step_timer cfg
  end.

(** Running a schedule, first choice first. *)
Fixpoint exec {A : Type} (env : environment) (s : list choice) (cfg : config A) : config A :=
  match s with
  | [] => cfg
  | c :: s' => exec env s' (step env c cfg)
  end.

Definition returned {A : Type} (cfg : config A) : option A :=
  match main cfg with
  | Ret a => Some a
  | _ => None
  end.

(** ** The package *)

(** [start] (lines 128-152).  The two deferred closures close a pipe when
    the named result [err] is not nil; they run last-registered first
    when the function returns. *)
Definition deferred_close_in {A : Type} (in_ : WriteCloser) (err : error) (k : prog A) : prog A :=
  match err with
  | Some _ => Call (WriteCloser_Close in_) (λ _, k)
  | None => k
  end.

Definition deferred_close_out {A : Type} (out : ReadCloser) (err : error) (k : prog A) : prog A :=
  match err with
  | Some _ => Call (ReadCloser_Close out) (λ _, k)
  | None => k
  end.

Definition start (cmd : commander) (proc : osProcess) : prog (option ioPipe * error) :=
  CallPipe (StdinPipe cmd) (λ in_ err,
    match err with
    | Some _ => Ret (None, err)
    | None =>
      CallPipe (StdoutPipe cmd) (λ out err,
        match err with
        | Some _ => deferred_close_in in_ err (Ret (None, err))
        | None =>
          Call (Start cmd) (λ err,
            match err with
            | Some _ =>
                deferred_close_out out err
                  (deferred_close_in in_ err (Ret (None, err)))
            | None =>
                deferred_close_out out None
                  (deferred_close_in in_ None
                     (Ret (Some (mkIoPipe out in_ proc), None)))
            end)
        end)
    end).

(** [makeCommand] (lines 156-160): [exec.Command] allocates the command
    with no process, [cmd.Stderr = w], and the pair returned holds the
    command and the value of [cmd.Process] read at that moment. *)
Definition makeCommand (w : Writer) (path : string) (args : list string)
  : prog (commander * osProcess) :=
  Command path args (λ cmd,
    SetStderr cmd w
      (GetProcess cmd (λ p, Ret (cmd, p)))).

(** [StartProvider], [StartProviderCodec], [StartConsumer] (lines 72-111).
    The RPC client or provider they wrap around the channel is outside the
    package; the model returns the channel itself. *)
Definition StartProvider (output : Writer) (path : string) (args : list string)
  : prog (option ioPipe * error) :=
  bind (makeCommand output path args) (λ cp,
    bind (start cp.1 cp.2) (λ res,
      match res.2 with
      | Some _ => Ret (None, res.2)
      | None => Ret (res.1, None)
      end)).

Definition StartProviderCodec (output : Writer) (path : string) (args : list string)
  : prog (option ioPipe * error) :=
  bind (makeCommand output path args) (λ cp,
    bind (start cp.1 cp.2) (λ res,
      match res.2 with
      | Some _ => Ret (None, res.2)
      | None => Ret (res.1, None)
      end)).

Definition StartConsumer (output : Writer) (path : string) (args : list string)
  : prog (option ioPipe * error) :=
  bind (makeCommand output path args) (λ cp,
    bind (start cp.1 cp.2) (λ res,
      match res.2 with
      | Some _ => Ret (None, res.2)
      | None => Ret (res.1, None)
      end)).

(** [closeProc] (lines 204-219), statement by statement. *)

(** [go func() { _, err := iop.proc.Wait(); result <- err }()] *)
Definition waiter (p : osProcess) (result : chan) : task :=
  TCall (Wait p) (λ err, TSend result err TDone).

(** The timeout branch, lines 214-217. *)
Definition closeProc_kill (iop : ioPipe) : prog error :=
  Call (Kill (proc iop)) (λ err,
    match err with
    | Some e => Ret (Some (killError e))
    | None => Ret (Some errProcStopTimeout)
    end).

(** The select, lines 210-218. *)
Definition closeProc_select (iop : ioPipe) (result : chan) : prog error :=
  Select result (λ err, Ret err) (closeProc_kill iop).

(** Lines 207-209 and what follows. *)
Definition closeProc_signal (iop : ioPipe) (result : chan) : prog error :=
  Call (Signal (proc iop)) (λ err,
    match err with
    | Some _ => Ret err
    | None => closeProc_select iop result
    end).

Definition closeProc_go (iop : ioPipe) (result : chan) : prog error :=
  Go (waiter (proc iop) result) (closeProc_signal iop result).

Definition closeProc (iop : ioPipe) : prog error :=
  MakeChan (λ result, closeProc_go iop result).

(** [ioPipe.Close] (lines 187-196). *)
Definition overwrite (err later : error) : error :=
  match later with
  | Some _ => later
  | None => err
  end.

Definition Close (iop : ioPipe) : prog error :=
  Call (ReadCloser_Close (iopReadCloser iop)) (λ err,
    Call (WriteCloser_Close (iopWriteCloser iop)) (λ writeErr,
      let err := overwrite err writeErr in
      bind (closeProc iop) (λ procErr,
        let err := overwrite err procErr in
        Ret err))).

(** [rwCloser.Close] (lines 229-235). *)
Definition rwCloser_Close (rw : rwCloser) : prog error :=
  Call (ReadCloser_Close (rwReadCloser rw)) (λ err,
    Call (WriteCloser_Close (rwWriteCloser rw)) (λ err',
      match err' with
      | Some _ => Ret err'
      | None => Ret err
      end)).

(** ** Notions used in the statements *)

(** *** Configurations *)

Definition with_main {A B : Type} (m : prog B) (cfg : config A) : config B :=
  mkConfig m (tasks cfg) (chans cfg) (cmds cfg) (trace cfg).

Definition is_ret {A : Type} (p : prog A) : bool :=
  match p with
  | Ret _ => true
  | _ => false
  end.

(** The steps that belong to the calling thread: its own, and the timer
    of its select. *)
Definition own_step (c : choice) : Prop := c = RunMain ∨ c = TimerFires.

(** *** [rwCloser.Close] *)

(** What [rwCloser.Close] does in an environment: the two calls, in this
    order, and the value returned. *)
Definition rw_read_err (env : environment) (rw : rwCloser) : error :=
  answer env [] (ReadCloser_Close (rwReadCloser rw)).

Definition rw_read_ev (env : environment) (rw : rwCloser) : event :=
  EvCall Main (ReadCloser_Close (rwReadCloser rw)) (rw_read_err env rw).

Definition rw_write_err (env : environment) (rw : rwCloser) : error :=
  answer env [rw_read_ev env rw] (WriteCloser_Close (rwWriteCloser rw)).

Definition rw_write_ev (env : environment) (rw : rwCloser) : event :=
  EvCall Main (WriteCloser_Close (rwWriteCloser rw)) (rw_write_err env rw).

(** Environments for concrete runs: the answer depends on the call only;
    [StdinPipe] hands out stream 1, [StdoutPipe] stream 2 and [Start]
    creates process 7. *)
Definition handles (c : call) : nat :=
  match c with
  | StdinPipe _ => 1
  | StdoutPipe _ => 2
  | Start _ => 7
  | _ => 0
  end.

Definition env_of (f : call → error) : environment :=
  mkEnv (λ _ c, f c) (λ _ c, handles c).

(** Both closes fail, each with its own error. *)
Definition closes_fail (c : call) : error :=
  match c with
  | ReadCloser_Close _ => Some (Foreign "read side")
  | WriteCloser_Close _ => Some (Foreign "write side")
  | _ => None
  end.

(** *** [start] *)

(** The three calls [start] makes on the command, with the answers of the
    environment, and the two pipes it obtains. *)
Definition start_in_err (env : environment) (cmd : commander) : error :=
  answer env [] (StdinPipe cmd).

Definition start_in (env : environment) (cmd : commander) : WriteCloser :=
  handle env [] (StdinPipe cmd).

Definition start_in_ev (env : environment) (cmd : commander) : event :=
  EvCall Main (StdinPipe cmd) (start_in_err env cmd).

Definition start_out_err (env : environment) (cmd : commander) : error :=
  answer env [start_in_ev env cmd] (StdoutPipe cmd).

Definition start_out (env : environment) (cmd : commander) : ReadCloser :=
  handle env [start_in_ev env cmd] (StdoutPipe cmd).

Definition start_out_ev (env : environment) (cmd : commander) : event :=
  EvCall Main (StdoutPipe cmd) (start_out_err env cmd).

Definition start_err (env : environment) (cmd : commander) : error :=
  answer env [start_in_ev env cmd; start_out_ev env cmd] (Start cmd).

Definition start_ev (env : environment) (cmd : commander) : event :=
  EvCall Main (Start cmd) (start_err env cmd).

(** The outcomes of [start]: which step failed, what was returned and
    what was called. *)
Inductive start_outcome (env : environment) (cmd : commander) (proc : osProcess)
  : option ioPipe * error → list event → Prop :=
| start_stdin_failed e :
    start_in_err env cmd = Some e →
    start_outcome env cmd proc (None, Some e) [start_in_ev env cmd]
| start_stdout_failed e r :
    start_in_err env cmd = None →
    start_out_err env cmd = Some e →
    start_outcome env cmd proc (None, Some e)
      [start_in_ev env cmd; start_out_ev env cmd;
       EvCall Main (WriteCloser_Close (start_in env cmd)) r]
| start_start_failed e r1 r2 :
    start_in_err env cmd = None →
    start_out_err env cmd = None →
    start_err env cmd = Some e →
    start_outcome env cmd proc (None, Some e)
      [start_in_ev env cmd; start_out_ev env cmd; start_ev env cmd;
       EvCall Main (ReadCloser_Close (start_out env cmd)) r1;
       EvCall Main (WriteCloser_Close (start_in env cmd)) r2]
| start_succeeded :
    start_in_err env cmd = None →
    start_out_err env cmd = None →
    start_err env cmd = None →
    start_outcome env cmd proc
      (Some (mkIoPipe (start_out env cmd) (start_in env cmd) proc), None)
      [start_in_ev env cmd; start_out_ev env cmd; start_ev env cmd].

(** The process cannot be started. *)
Definition start_fails (c : call) : error :=
  match c with
  | Start _ => Some (Foreign "exec: file not found")
  | _ => None
  end.

(** *** [closeProc]: the reachable configurations *)

(** Events of the calling thread and events of goroutines. *)
Definition of_goroutine (ev : event) : bool :=
  match ev with
  | EvCall (Goroutine _) _ _ => true
  | EvSend _ _ _ => true
  | _ => false
  end.

Definition by_main (evs : list event) : list event :=
  List.filter (λ ev, negb (of_goroutine ev)) evs.

Definition by_go (evs : list event) : list event :=
  List.filter of_goroutine evs.

(** The value [closeProc] returns after [Kill] answered [k]. *)
Definition kill_result (k : error) : error :=
  match k with
  | Some e => Some (killError e)
  | None => Some errProcStopTimeout
  end.

(** Where the goroutine of [closeProc] can be: the tasks of the
    configuration, the value it has put in the channel (if it has) and the
    events it has produced. *)
Inductive go_state (p : osProcess) : list task → option error → list event → Prop :=
| go_waiting :
    go_state p [waiter p 0] None []
| go_sending w :
    go_state p [TSend 0 w TDone] None [EvCall (Goroutine 0) (Wait p) w]
| go_done w :
    go_state p [TDone] (Some w)
      [EvCall (Goroutine 0) (Wait p) w; EvSend 0 0 w].

(** Where the calling thread can be, started with no goroutine and no
    channel around, in store [S] after the events [tr0]. *)
Inductive cp_state (iop : ioPipe) (S : list Cmd) (tr0 : list event)
  : config error → Prop :=
| cp_at_make :
    cp_state iop S tr0 (mkConfig (closeProc iop) [] [] S tr0)
| cp_at_go :
    cp_state iop S tr0
      (mkConfig (closeProc_go iop 0) [] [None] S (tr0 ++ [EvMakeChan 0]))
| cp_at_signal T sent evs :
    go_state (proc iop) T sent (by_go evs) →
    by_main evs = [EvMakeChan 0; EvGo 0] →
    cp_state iop S tr0
      (mkConfig (closeProc_signal iop 0) T [sent] S (tr0 ++ evs))
| cp_ret_signal T sent evs e :
    go_state (proc iop) T sent (by_go evs) →
    by_main evs
    = [EvMakeChan 0; EvGo 0; EvCall Main (Signal (proc iop)) (Some e)] →
    cp_state iop S tr0 (mkConfig (Ret (Some e)) T [sent] S (tr0 ++ evs))
| cp_at_select T sent evs :
    go_state (proc iop) T sent (by_go evs) →
    by_main evs = [EvMakeChan 0; EvGo 0; EvCall Main (Signal (proc iop)) None] →
    cp_state iop S tr0
      (mkConfig (closeProc_select iop 0) T [sent] S (tr0 ++ evs))
| cp_ret_recv T evs v :
    go_state (proc iop) T (Some v) (by_go evs) →
    by_main evs
    = [EvMakeChan 0; EvGo 0; EvCall Main (Signal (proc iop)) None; EvRecv 0 v] →
    cp_state iop S tr0 (mkConfig (Ret v) T [None] S (tr0 ++ evs))
| cp_at_kill T sent evs :
    go_state (proc iop) T sent (by_go evs) →
    by_main evs
    = [EvMakeChan 0; EvGo 0; EvCall Main (Signal (proc iop)) None; EvTimeout] →
    cp_state iop S tr0 (mkConfig (closeProc_kill iop) T [sent] S (tr0 ++ evs))
| cp_ret_kill T sent evs k :
    go_state (proc iop) T sent (by_go evs) →
    by_main evs
    = [EvMakeChan 0; EvGo 0; EvCall Main (Signal (proc iop)) None; EvTimeout;
       EvCall Main (Kill (proc iop)) k] →
    cp_state iop S tr0 (mkConfig (Ret (kill_result k)) T [sent] S (tr0 ++ evs)).

(** What a run of [closeProc] that has returned looks like: the events of
    the calling thread [mevs], those of the goroutine [gevs], and the
    value returned.  Either the signal failed, or the select received the
    result of the wait, or the select timed out and [Kill] was called. *)
Definition cp_outcome (p : osProcess) (res : error) (mevs gevs : list event) : Prop :=
  (∃ e, res = Some e
        ∧ mevs = [EvMakeChan 0; EvGo 0; EvCall Main (Signal p) (Some e)])
  ∨ (mevs = [EvMakeChan 0; EvGo 0; EvCall Main (Signal p) None; EvRecv 0 res]
     ∧ gevs = [EvCall (Goroutine 0) (Wait p) res; EvSend 0 0 res])
  ∨ (∃ k, res = kill_result k
          ∧ mevs = [EvMakeChan 0; EvGo 0; EvCall Main (Signal p) None; EvTimeout;
                    EvCall Main (Kill p) k]).

(** The events of the goroutine are a prefix of: [Wait] returns, then the
    result is sent. *)
Definition go_events (p : osProcess) (gevs : list event) : Prop :=
  gevs = [] ∨ ∃ w, gevs = [EvCall (Goroutine 0) (Wait p) w]
                   ∨ gevs = [EvCall (Goroutine 0) (Wait p) w; EvSend 0 0 w].

(** *** The shutdown protocol: the three ways out *)

(** Every call succeeds. *)
Definition all_succeed (c : call) : error := None.

(** [Kill] fails, everything else succeeds. *)
Definition kill_fails (c : call) : error :=
  match c with
  | Kill _ => Some (Foreign "os: process already finished")
  | _ => None
  end.

(** The process exits with an error once interrupted. *)
Definition wait_reports (c : call) : error :=
  match c with
  | Wait _ => Some (Foreign "exit status 1")
  | _ => None
  end.

(** The interrupt cannot be delivered. *)
Definition signal_fails (c : call) : error :=
  match c with
  | Signal _ => Some (Foreign "os: process already finished")
  | _ => None
  end.

(** A channel over process 7, reading from stream 2 and writing to
    stream 1. *)
Definition iop7 : ioPipe := mkIoPipe 2 1 (Pid 7).

(** *** The wait goroutine *)

Definition is_wait (ev : event) : bool :=
  match ev with
  | EvCall _ (Wait _) _ => true
  | _ => false
  end.

Definition is_send (ev : event) : bool :=
  match ev with
  | EvSend _ _ _ => true
  | _ => false
  end.

Definition is_recv (ev : event) : bool :=
  match ev with
  | EvRecv _ _ => true
  | _ => false
  end.

Definition count (f : event → bool) (evs : list event) : nat :=
  length (List.filter f evs).

(** *** [ioPipe.Close] *)

(** The two closes [ioPipe.Close] starts with, and their answers. *)
Definition close_read_err (env : environment) (iop : ioPipe) : error :=
  answer env [] (ReadCloser_Close (iopReadCloser iop)).

Definition close_read_ev (env : environment) (iop : ioPipe) : event :=
  EvCall Main (ReadCloser_Close (iopReadCloser iop)) (close_read_err env iop).

Definition close_write_err (env : environment) (iop : ioPipe) : error :=
  answer env [close_read_ev env iop] (WriteCloser_Close (iopWriteCloser iop)).

Definition close_write_ev (env : environment) (iop : ioPipe) : event :=
  EvCall Main (WriteCloser_Close (iopWriteCloser iop)) (close_write_err env iop).

(** [closeProc] as [ioPipe.Close] starts it: after the two closes. *)
Definition closeProc_in_Close (env : environment) (iop : ioPipe) : config error :=
  mkConfig (closeProc iop) [] [] [] [close_read_ev env iop; close_write_ev env iop].

(** Everything fails: both closes and the signal. *)
Definition all_fail (c : call) : error :=
  match c with
  | ReadCloser_Close _ => Some (Foreign "read side")
  | WriteCloser_Close _ => Some (Foreign "write side")
  | Signal _ => Some (Foreign "os: process already finished")
  | _ => None
  end.

(** *** Launching and closing: which process handle is used *)

(** What the caller of [StartProvider] and its siblings does with the
    result: on success it eventually closes the channel (closing the RPC
    client closes the channel it wraps). *)
Definition launch_and_close
    (starter : Writer → string → list string → prog (option ioPipe * error))
    (output : Writer) (path : string) (args : list string) : prog (option error) :=
  bind (starter output path args) (λ res,
    match res with
    | (Some rwc, None) => bind (Close rwc) (λ e, Ret (Some e))
    | _ => Ret None
    end).

(** A call on a process handle is a call on [h]. *)
Definition call_on (h : osProcess) (c : call) : Prop :=
  match c with
  | Wait p | Kill p | Signal p => p = h
  | _ => True
  end.

Definition process_calls_on (h : osProcess) (ev : event) : Prop :=
  match ev with
  | EvCall _ c _ => call_on h c
  | _ => True
  end.

(** Programs and goroutines all of whose process calls are on the nil
    handle, and which no longer read or create commands. *)
Inductive tsafe : task → Prop :=
| tsafe_done : tsafe TDone
| tsafe_call c k : call_on NilProcess c → (∀ r, tsafe (k r)) → tsafe (TCall c k)
| tsafe_send ch v k : tsafe k → tsafe (TSend ch v k).

Inductive safe {A : Type} : prog A → Prop :=
| safe_ret a : safe (Ret a)
| safe_call c k : call_on NilProcess c → (∀ r, safe (k r)) → safe (Call c k)
| safe_pipe c k : call_on NilProcess c → (∀ h r, safe (k h r)) → safe (CallPipe c k)
| safe_chan k : (∀ ch, safe (k ch)) → safe (MakeChan k)
| safe_go t k : tsafe t → safe k → safe (Go t k)
| safe_select ch kr kt : (∀ v, safe (kr v)) → safe kt → safe (Select ch kr kt).

(** The command's [Process] field once [Start] has succeeded. *)
Definition started (store : list Cmd) (tr : list event) : Prop :=
  (∃ t, In (EvCall t (Start 0) None) tr) →
  ∃ pid, Process <$> store !! 0 = Some (Pid pid).

Record safe_config {A : Type} (cfg : config A) : Prop := mkSafeConfig {
  safe_main : safe (main cfg);
  safe_tasks : Forall tsafe (tasks cfg);
  safe_trace : Forall (process_calls_on NilProcess) (trace cfg);
  safe_store : started (cmds cfg) (trace cfg)
}.

(** What is left of [launch_and_close] once [makeCommand] has returned
    the command [cmd] and the handle [p]. *)
Definition started_session (cmd : commander) (p : osProcess) : prog (option error) :=
  bind (bind (start cmd p) (λ res,
          match res.2 with
          | Some _ => Ret (None, res.2)
          | None => Ret (res.1, None)
          end))
       (λ res,
          match res with
          | (Some rwc, None) => bind (Close rwc) (λ e, Ret (Some e))
          | _ => Ret None
          end).

Inductive session_state (w : Writer) (path : string) (args : list string)
  : config (option error) → Prop :=
| session_init :
    session_state w path args
      (mkConfig (Command path args (λ cmd,
                   SetStderr cmd w (GetProcess cmd (λ p, started_session cmd p))))
         [] [] [] [])
| session_stderr :
    session_state w path args
      (mkConfig (SetStderr 0 w (GetProcess 0 (λ p, started_session 0 p)))
         [] [] [mkCmd path args None NilProcess] [])
| session_get :
    session_state w path args
      (mkConfig (GetProcess 0 (λ p, started_session 0 p))
         [] [] [mkCmd path args (Some w) NilProcess] [])
| session_safe cfg :
    length (cmds cfg) = 1 → safe_config cfg → session_state w path args cfg.

(** A launcher uses the pre-start handle when, under every environment
    and schedule: a channel it returns holds the nil handle while the
    command it launched holds the process [Start] created; and when the
    caller closes the channel, every [Signal], [Wait] and [Kill] of the
    whole run is made on the nil handle. *)
Definition uses_pre_start_handle
    (starter : Writer → string → list string → prog (option ioPipe * error)) : Prop :=
  ∀ (env : environment) (output : Writer) (path : string) (args : list string)
    (s : list choice),
    (∀ rwc,
       returned (exec env s (init (starter output path args))) = Some (Some rwc, None) →
       proc rwc = NilProcess
       ∧ In (EvCall Main (Start 0) None)
            (trace (exec env s (init (starter output path args))))
       ∧ Process <$> cmds (exec env s (init (starter output path args))) !! 0
         = Some (Pid (handle env [start_in_ev env 0; start_out_ev env 0] (Start 0))))
    ∧ Forall (process_calls_on NilProcess)
        (trace (exec env s (init (launch_and_close starter output path args)))).

(** *** Closing twice *)

(** Two calls of [Close] on the same channel, one after the other. *)
Definition Close_twice (iop : ioPipe) : prog (error * error) :=
  bind (Close iop) (λ e1, bind (Close iop) (λ e2, Ret (e1, e2))).

(** Channel discipline: every channel is made for the goroutine started
    right after it, which is the only one to send on it, once. *)
Inductive disc {A : Type} : option chan → prog A → Prop :=
| disc_ret a : disc None (Ret a)
| disc_call c k : (∀ r, disc None (k r)) → disc None (Call c k)
| disc_pipe c k : (∀ h r, disc None (k h r)) → disc None (CallPipe c k)
| disc_chan k : (∀ ch, disc (Some ch) (k ch)) → disc None (MakeChan k)
| disc_go p ch k : disc None k → disc (Some ch) (Go (waiter p ch) k)
| disc_select ch kr kt :
    (∀ v, disc None (kr v)) → disc None kt → disc None (Select ch kr kt).

(** Goroutine [i] is the waiter of channel [i]: it has finished, or it
    still has to send and the buffer of its channel is empty. *)
Definition waiter_of (C : list (option error)) (i : nat) (t : task) : Prop :=
  t = TDone
  ∨ (((∃ p, t = waiter p i) ∨ (∃ v, t = TSend i v TDone)) ∧ C !! i = Some None).

Record disc_config {A : Type} (cfg : config A) : Prop := mkDiscConfig {
  disc_tasks : ∀ i t, tasks cfg !! i = Some t → waiter_of (chans cfg) i t;
  disc_main :
    (length (chans cfg) = length (tasks cfg) ∧ disc None (main cfg))
    ∨ (length (chans cfg) = S (length (tasks cfg))
       ∧ chans cfg !! length (tasks cfg) = Some None
       ∧ disc (Some (length (tasks cfg))) (main cfg))
}.

(** *** Further notions: what the protocol does, and how often *)

Definition is_signal (ev : event) : bool :=
  match ev with
  | EvCall _ (Signal _) _ => true
  | _ => false
  end.

Definition is_kill (ev : event) : bool :=
  match ev with
  | EvCall _ (Kill _) _ => true
  | _ => false
  end.

Definition is_timeout (ev : event) : bool :=
  match ev with
  | EvTimeout => true
  | _ => false
  end.

(** The events of the calling thread in [closeProc] are a prefix of one of
    its three paths. *)
Definition cp_main_events (p : osProcess) (mevs : list event) : Prop :=
  mevs = []
  ∨ mevs = [EvMakeChan 0]
  ∨ mevs = [EvMakeChan 0; EvGo 0]
  ∨ (∃ r, mevs = [EvMakeChan 0; EvGo 0; EvCall Main (Signal p) r])
  ∨ (∃ v, mevs = [EvMakeChan 0; EvGo 0; EvCall Main (Signal p) None; EvRecv 0 v])
  ∨ mevs = [EvMakeChan 0; EvGo 0; EvCall Main (Signal p) None; EvTimeout]
  ∨ (∃ k, mevs = [EvMakeChan 0; EvGo 0; EvCall Main (Signal p) None; EvTimeout;
                  EvCall Main (Kill p) k]).

(** An event that touches nothing but the two streams and the process
    handle of the channel [iop]. *)
Definition within (iop : ioPipe) (ev : event) : Prop :=
  match ev with
  | EvCall _ (ReadCloser_Close r) _ => r = iopReadCloser iop
  | EvCall _ (WriteCloser_Close w) _ => w = iopWriteCloser iop
  | EvCall _ (Wait p) _ | EvCall _ (Kill p) _ | EvCall _ (Signal p) _ => p = proc iop
  | EvCall _ (StdinPipe _) _ | EvCall _ (StdoutPipe _) _ | EvCall _ (Start _) _ => False
  | _ => True
  end.

(** *** Further notions: which wait a select hears of *)

Definition is_makechan (ev : event) : bool :=
  match ev with
  | EvMakeChan _ => true
  | _ => false
  end.

(** Programs in which every goroutine started is the waiter on the
    process [p0] for the channel made last, and every select listens on
    the channel made last. *)
Inductive sel {A : Type} (p0 : osProcess) : option chan → prog A → Prop :=
| sel_ret cur a : sel p0 cur (Ret a)
| sel_call cur c k : (∀ r, sel p0 cur (k r)) → sel p0 cur (Call c k)
| sel_pipe cur c k : (∀ h r, sel p0 cur (k h r)) → sel p0 cur (CallPipe c k)
| sel_chan cur k : (∀ ch, sel p0 (Some ch) (k ch)) → sel p0 cur (MakeChan k)
| sel_go ch k : sel p0 (Some ch) k → sel p0 (Some ch) (Go (waiter p0 ch) k)
| sel_select ch kr kt :
    (∀ v, sel p0 (Some ch) (kr v)) → sel p0 (Some ch) kt →
    sel p0 (Some ch) (Select ch kr kt).

(** Goroutine [i] sends on channel [i] only, and what it sends is what
    its [Wait] on [p0] answered. *)
Definition sends_own_wait (p0 : osProcess) (tr : list event) : Prop :=
  ∀ i ch v, In (EvSend i ch v) tr →
            ch = i ∧ In (EvCall (Goroutine i) (Wait p0) v) tr.

(** Whenever a select receives [v] on channel [ch]: [ch] is the channel
    made last at that moment, and before that moment goroutine [ch] got
    [v] as the answer of its [Wait] on [p0] and sent it on [ch]. *)
Definition receives_latest (p0 : osProcess) (tr : list event) : Prop :=
  ∀ tr1 ch v tr2, tr = tr1 ++ EvRecv ch v :: tr2 →
    count is_makechan tr1 = S ch
    ∧ In (EvSend ch ch v) tr1
    ∧ In (EvCall (Goroutine ch) (Wait p0) v) tr1.

Record flow_config {A : Type} (p0 : osProcess) (cfg : config A) : Prop := mkFlowConfig {
  flow_disc : disc_config cfg;
  flow_main :
    ∃ cur, sel p0 cur (main cfg) ∧ ∀ ch, cur = Some ch → S ch = length (chans cfg);
  flow_made : count is_makechan (trace cfg) = length (chans cfg);
  flow_tasks :
    ∀ i t, tasks cfg !! i = Some t →
      t = TDone ∨ t = waiter p0 i
      ∨ ∃ v, t = TSend i v TDone ∧ In (EvCall (Goroutine i) (Wait p0) v) (trace cfg);
  flow_chans :
    ∀ ch v, chans cfg !! ch = Some (Some v) → In (EvSend ch ch v) (trace cfg);
  flow_sends : sends_own_wait p0 (trace cfg);
  flow_recvs : receives_latest p0 (trace cfg)
}.

(** The process can be waited for once: the first [Wait] reports how it
    exited, every later one fails. *)
Definition waits_once : environment :=
  mkEnv (λ tr c,
           match c with
           | Wait _ =>
               if Nat.eqb (count is_wait tr) 0
               then Some (Foreign "exit status 1")
               else Some (Foreign "wait: no child processes")
           | _ => None
           end)
        (λ _ c, handles c).

(** *** Calls through the nil pointer *)

(** The methods [Wait], [Kill] and [Signal] of [*os.Process] read the
    fields of their receiver.  Called through the nil pointer they do not
    return: the goroutine panics, and since nothing in the package
    recovers, the program ends there, whichever goroutine it was. *)
Definition is_nil_process (p : osProcess) : bool :=
  match p with
  | NilProcess => true
  | Pid _ => false
  end.

Definition on_process (c : call) : bool :=
  match c with
  | Wait _ | Kill _ | Signal _ => true
  | _ => false
  end.

Definition on_nil (c : call) : bool :=
  match c with
  | Wait p | Kill p | Signal p => is_nil_process p
  | _ => false
  end.

Definition process_call (ev : event) : bool :=
  match ev with
  | EvCall _ c _ => on_process c
  | _ => false
  end.

Definition nil_receiver (ev : event) : bool :=
  match ev with
  | EvCall _ c _ => on_nil c
  | _ => false
  end.

Definition panicked (tr : list event) : bool := existsb nil_receiver tr.

(** Running a schedule for as long as the program lives: [None] as soon
    as a step makes a call through the nil pointer.  What the environment
    answered to that call is of no account, the call never returns. *)
Fixpoint run {A : Type} (env : environment) (s : list choice) (cfg : config A)
  : option (config A) :=
  match s with
  | [] => Some cfg
  | c :: s' =>
      if panicked (trace (step env c cfg)) then None
      else run env s' (step env c cfg)
  end.

(** Programs and goroutines that make no call through the nil pointer. *)
Inductive tsound : task → Prop :=
| tsound_done : tsound TDone
| tsound_call c k : on_nil c = false → (∀ r, tsound (k r)) → tsound (TCall c k)
| tsound_send ch v k : tsound k → tsound (TSend ch v k).

Inductive sound {A : Type} : prog A → Prop :=
| sound_ret a : sound (Ret a)
| sound_call c k : on_nil c = false → (∀ r, sound (k r)) → sound (Call c k)
| sound_pipe c k : on_nil c = false → (∀ h r, sound (k h r)) → sound (CallPipe c k)
| sound_command path args k : (∀ c, sound (k c)) → sound (Command path args k)
| sound_stderr c w k : sound k → sound (SetStderr c w k)
| sound_get c k : (∀ p, sound (k p)) → sound (GetProcess c k)
| sound_chan k : (∀ ch, sound (k ch)) → sound (MakeChan k)
| sound_go t k : tsound t → sound k → sound (Go t k)
| sound_select ch kr kt : (∀ v, sound (kr v)) → sound kt → sound (Select ch kr kt).

Record sound_config {A : Type} (cfg : config A) : Prop := mkSoundConfig {
  sound_main : sound (main cfg);
  sound_tasks : Forall tsound (tasks cfg);
  sound_trace : panicked (trace cfg) = false
}.

(** Programs that return a value outside [ok] only after the calling
    thread has made a call on a process. *)
Inductive quiet {A : Type} (ok : A → Prop) : prog A → Prop :=
| quiet_ret a : ok a → quiet ok (Ret a)
| quiet_process c k : on_process c = true → quiet ok (Call c k)
| quiet_call c k : (∀ r, quiet ok (k r)) → quiet ok (Call c k)
| quiet_pipe c k : (∀ h r, quiet ok (k h r)) → quiet ok (CallPipe c k)
| quiet_command path args k : (∀ c, quiet ok (k c)) → quiet ok (Command path args k)
| quiet_stderr c w k : quiet ok k → quiet ok (SetStderr c w k)
| quiet_get c k : (∀ p, quiet ok (k p)) → quiet ok (GetProcess c k)
| quiet_chan k : (∀ ch, quiet ok (k ch)) → quiet ok (MakeChan k)
| quiet_go t k : quiet ok k → quiet ok (Go t k)
| quiet_select ch kr kt :
    (∀ v, quiet ok (kr v)) → quiet ok kt → quiet ok (Select ch kr kt).

(** Closing a launched channel cannot be carried out: in every run of a
    launch followed by [Close] that lives, no [Signal], [Wait] or [Kill]
    has been made, and [Close] has not returned. *)
Definition close_panics
    (starter : Writer → string → list string → prog (option ioPipe * error)) : Prop :=
  ∀ (env : environment) (output : Writer) (path : string) (args : list string)
    (s : list choice) (cfg : config (option error)),
    run env s (init (launch_and_close starter output path args)) = Some cfg →
    existsb process_call (trace cfg) = false
    ∧ ∀ e, returned cfg ≠ Some (Some e).

(** * Part two: what the code guarantees *)

(** ** General facts about the scheduler *)

(** A thread that has returned stays returned. *)
Lemma step_returned {A : Type} (env : environment) (c : choice) (cfg : config A) (a : A) :
  main cfg = Ret a → main (step env c cfg) = Ret a.
Proof.
  intros H. destruct c as [|i|]; simpl.
  - unfold step_main. by rewrite H.
  - unfold step_go. destruct (tasks cfg !! i) as [[| |ch v k]|]; simpl; try done.
    destruct (chans cfg !! ch) as [[|]|]; done.
  - unfold step_timer. by rewrite H.
Qed.

Lemma exec_returned {A : Type} (env : environment) (s : list choice) (cfg : config A) (a : A) :
  main cfg = Ret a → main (exec env s cfg) = Ret a.
Proof.
  revert cfg. induction s as [|c s IH]; intros cfg H; simpl; [done|].
  apply IH. by apply step_returned.
Qed.

(** Invariants: what holds at the start and is kept by every step holds
    after every schedule. *)
Lemma exec_invariant {A : Type} (env : environment) (I : config A → Prop) :
  (∀ c cfg, I cfg → I (step env c cfg)) →
  ∀ s cfg, I cfg → I (exec env s cfg).
Proof.
  intros Hstep s. induction s as [|c s IH]; intros cfg H; simpl; [done|].
  apply IH. by apply Hstep.
Qed.

(** While the calling thread is the only thing that can move, a schedule
    either leaves the configuration alone or performs that step and
    continues. *)
Lemma exec_only_main {A : Type} (env : environment) (cfg : config A) :
  (∀ i, step_go env i cfg = cfg) → step_timer cfg = cfg →
  ∀ s, exec env s cfg = cfg ∨ ∃ s', exec env s cfg = exec env s' (step_main env cfg).
Proof.
  intros Hgo Htimer s. induction s as [|c s IH]; simpl; [by left|].
  destruct c as [|i|]; simpl.
  - right. by eexists.
  - by rewrite Hgo.
  - by rewrite Htimer.
Qed.

(** Steps of goroutines do not look at the calling thread. *)
Lemma step_go_with_main {A B : Type} (env : environment) (i : nat)
    (m : prog B) (cfg : config A) :
  step_go env i (with_main m cfg) = with_main m (step_go env i cfg).
Proof.
  unfold step_go, with_main; simpl.
  destruct (tasks cfg !! i) as [[| |ch v k]|]; simpl; try done.
  destruct (chans cfg !! ch) as [[|]|]; done.
Qed.

(** A step of [bind p f], while [p] has not returned, is a step of [p]. *)
Lemma step_bind {A B : Type} (env : environment) (c : choice)
    (f : A → prog B) (cfg : config A) :
  is_ret (main cfg) = false →
  step env c (with_main (bind (main cfg) f) cfg)
  = with_main (bind (main (step env c cfg)) f) (step env c cfg).
Proof.
  intros Hret. destruct c as [|i|]; simpl.
  - unfold step_main, with_main; simpl.
    destruct (main cfg) as [| | | | | | | |ch kr kt] eqn:Hm; simpl in *; try done.
    destruct (chans cfg !! ch) as [[|]|]; simpl; rewrite ?Hm; done.
  - rewrite step_go_with_main. f_equal.
    unfold step_go. destruct (tasks cfg !! i) as [[| |ch v k]|]; simpl; try done.
    destruct (chans cfg !! ch) as [[|]|]; done.
  - unfold step_timer, with_main; simpl.
    destruct (main cfg) eqn:Hm; simpl in *; rewrite ?Hm; done.
Qed.

Lemma exec_idle {A : Type} (env : environment) (cfg : config A) :
  (∀ c, step env c cfg = cfg) → ∀ s, exec env s cfg = cfg.
Proof.
  intros H s. induction s as [|c s IH]; simpl; [done|]. by rewrite H.
Qed.

(** With no goroutine around, a thread that has returned leaves nothing
    to run. *)
Lemma exec_finished {A : Type} (env : environment) (a : A)
    (C : list (option error)) (S : list Cmd) (tr : list event) (s : list choice) :
  exec env s (mkConfig (Ret a) [] C S tr) = mkConfig (Ret a) [] C S tr.
Proof. apply exec_idle. by intros [|i|]. Qed.

(** The calling thread never depends on anybody else to make progress:
    from every configuration some schedule that moves only the calling
    thread and the timer makes it return. *)
Lemma main_can_finish {A : Type} (env : environment) (p : prog A) :
  ∀ T C S tr, ∃ s,
    Forall own_step s ∧ is_ret (main (exec env s (mkConfig p T C S tr))) = true.
Proof.
  induction p as [a|c k IH|c k IH|path args k IH|c w k IH|c k IH|k IH|t k IH|ch kr IHr kt IHt];
    intros T C S tr.
  - exists []. done.
  - destruct (IH (answer env tr c) T C
               (after_call c (answer env tr c) (handle env tr c) S)
               (tr ++ [EvCall Main c (answer env tr c)])) as (s & Hs & Hr).
    exists (RunMain :: s). split; [constructor; [by left|done]|done].
  - destruct (IH (handle env tr c) (answer env tr c) T C
               (after_call c (answer env tr c) (handle env tr c) S)
               (tr ++ [EvCall Main c (answer env tr c)])) as (s & Hs & Hr).
    exists (RunMain :: s). split; [constructor; [by left|done]|done].
  - destruct (IH (length S) T C (S ++ [mkCmd path args None NilProcess]) tr)
      as (s & Hs & Hr).
    exists (RunMain :: s). split; [constructor; [by left|done]|done].
  - destruct (IH T C (alter (setStderr w) c S) tr) as (s & Hs & Hr).
    exists (RunMain :: s). split; [constructor; [by left|done]|done].
  - destruct (IH (default NilProcess (Process <$> S !! c)) T C S tr) as (s & Hs & Hr).
    exists (RunMain :: s). split; [constructor; [by left|done]|done].
  - destruct (IH (length C) T (C ++ [None]) S (tr ++ [EvMakeChan (length C)]))
      as (s & Hs & Hr).
    exists (RunMain :: s). split; [constructor; [by left|done]|done].
  - destruct (IH (T ++ [t]) C S (tr ++ [EvGo (length T)])) as (s & Hs & Hr).
    exists (RunMain :: s). split; [constructor; [by left|done]|done].
  - destruct (IHt T C S (tr ++ [EvTimeout])) as (s & Hs & Hr).
    exists (TimerFires :: s). split; [constructor; [by right|done]|done].
Qed.

(** Peel the next step of the calling thread off a schedule, in a
    configuration where nothing else can move. *)
Ltac only_main s' :=
  match goal with
  | |- context [exec ?env ?s ?cfg] =>
      let H := fresh "Hexec" in
      destruct (exec_only_main env cfg (λ _, eq_refl) eq_refl s) as [H|[s' H]];
      rewrite H; clear H; [|unfold step_main; simpl]
  end.

(** ** [rwCloser.Close] *)

Lemma rwCloser_Close_runs (env : environment) (rw : rwCloser) (s : list choice) :
  let cfg := exec env s (init (rwCloser_Close rw)) in
  returned cfg = None
  ∨ (returned cfg = Some (match rw_write_err env rw with
                          | Some _ => rw_write_err env rw
                          | None => rw_read_err env rw
                          end)
     ∧ trace cfg = [rw_read_ev env rw; rw_write_ev env rw]).
Proof.
  simpl. unfold init, rwCloser_Close.
  only_main s1; [by left|].
  only_main s2; [by left|].
  right. unfold rw_write_ev, rw_write_err, rw_read_ev, rw_read_err.
  destruct (answer env [EvCall Main _ _] _); rewrite exec_finished; done.
Qed.

(** C6.  [rwCloser.Close] returns under every environment, and on every
    run that returns it has called the read side's Close and then the write
    side's Close, whatever the first call answered, and nothing else; the
    value returned is the write side's error when there is one, else the
    read side's error (nil when both succeeded). *)
Theorem rwCloser_Close_last_error (env : environment) (rw : rwCloser) :
  returned (exec env [RunMain; RunMain] (init (rwCloser_Close rw))) ≠ None
  ∧ ∀ (s : list choice) (res : error),
      returned (exec env s (init (rwCloser_Close rw))) = Some res →
      trace (exec env s (init (rwCloser_Close rw)))
      = [EvCall Main (ReadCloser_Close (rwReadCloser rw)) (rw_read_err env rw);
         EvCall Main (WriteCloser_Close (rwWriteCloser rw)) (rw_write_err env rw)]
      ∧ res = match rw_write_err env rw with
              | Some _ => rw_write_err env rw
              | None => rw_read_err env rw
              end.
Proof.
  split.
  - simpl. unfold step_main; simpl. by destruct (answer env [_] _).
  - intros s res Hres.
    destruct (rwCloser_Close_runs env rw s) as [Hnone|[Hsome Htr]]; simpl in *.
    + congruence.
    + split; [done|congruence].
Qed.

Lemma rwCloser_Close_last_error_witness :
  trace (exec (env_of closes_fail) [RunMain; RunGo 0; RunMain]
           (init (rwCloser_Close (mkRwCloser 3 4))))
  = [EvCall Main (ReadCloser_Close 3) (Some (Foreign "read side"));
     EvCall Main (WriteCloser_Close 4) (Some (Foreign "write side"))]
  ∧ Some (Foreign "write side") = Some (Foreign "write side").
Proof.
  exact (proj2 (rwCloser_Close_last_error (env_of closes_fail) (mkRwCloser 3 4))
           [RunMain; RunGo 0; RunMain] (Some (Foreign "write side")) eq_refl).
Defined.

(** ** [start] *)

Lemma start_runs (env : environment) (cmd : commander) (proc : osProcess)
    (s : list choice) :
  let cfg := exec env s (init (start cmd proc)) in
  ∀ res, returned cfg = Some res → start_outcome env cmd proc res (trace cfg).
Proof.
  simpl. unfold init, start. intros res.
  only_main s1; [done|].
  destruct (answer env [] (StdinPipe cmd)) as [e|] eqn:Hin.
  { rewrite exec_finished. simpl. intros [= <-].
    replace (EvCall Main (StdinPipe cmd) (Some e)) with (start_in_ev env cmd)
      by (unfold start_in_ev, start_in_err; by rewrite Hin).
    by constructor. }
  only_main s2; [done|].
  change (handle env [] (StdinPipe cmd)) with (start_in env cmd).
  replace (EvCall Main (StdinPipe cmd) None) with (start_in_ev env cmd)
    by (unfold start_in_ev, start_in_err; by rewrite Hin).
  destruct (answer env [start_in_ev env cmd] (StdoutPipe cmd)) as [e|] eqn:Hout.
  { simpl. only_main s3; [done|].
    rewrite exec_finished. simpl. intros [= <-].
    replace (EvCall Main (StdoutPipe cmd) (Some e)) with (start_out_ev env cmd)
      by (unfold start_out_ev, start_out_err; by rewrite Hout).
    by constructor. }
  only_main s3; [done|].
  change (handle env [start_in_ev env cmd] (StdoutPipe cmd)) with (start_out env cmd).
  replace (EvCall Main (StdoutPipe cmd) None) with (start_out_ev env cmd)
    by (unfold start_out_ev, start_out_err; by rewrite Hout).
  destruct (answer env [start_in_ev env cmd; start_out_ev env cmd] (Start cmd))
    as [e|] eqn:Hst.
  { simpl. only_main s4; [done|]. only_main s5; [done|].
    rewrite exec_finished. simpl. intros [= <-].
    replace (EvCall Main (Start cmd) (Some e)) with (start_ev env cmd)
      by (unfold start_ev, start_err; by rewrite Hst).
    by constructor. }
  simpl. rewrite exec_finished. simpl. intros [= <-].
  replace (EvCall Main (Start cmd) None) with (start_ev env cmd)
    by (unfold start_ev, start_err; by rewrite Hst).
  by constructor.
Qed.

Lemma is_ret_returned {A : Type} (cfg : config A) :
  is_ret (main cfg) = true → returned cfg ≠ None.
Proof. unfold returned. by destruct (main cfg). Qed.

(** C7.  [start] returns under every environment.  On every run that
    returns: when [StdinPipe] failed the result is the nil channel with
    that error and nothing was closed; when [StdoutPipe] failed the result
    is the nil channel with that error and the stdin pipe was closed; when
    [Start] failed the result is the nil channel with that error and both
    pipes were closed (stdout pipe first); and only when all three
    succeeded is a channel returned, built from the two pipes and the
    process handle given, with nothing closed. *)
Theorem start_failure_releases_pipes (env : environment) (cmd : commander)
    (proc : osProcess) :
  (∃ s, returned (exec env s (init (start cmd proc))) ≠ None)
  ∧ ∀ (s : list choice) (res : option ioPipe * error),
      returned (exec env s (init (start cmd proc))) = Some res →
      match start_in_err env cmd, start_out_err env cmd, start_err env cmd with
      | Some e, _, _ =>
          res = (None, Some e)
          ∧ trace (exec env s (init (start cmd proc))) = [start_in_ev env cmd]
      | None, Some e, _ =>
          res = (None, Some e)
          ∧ ∃ r, trace (exec env s (init (start cmd proc)))
                 = [start_in_ev env cmd; start_out_ev env cmd;
                    EvCall Main (WriteCloser_Close (start_in env cmd)) r]
      | None, None, Some e =>
          res = (None, Some e)
          ∧ ∃ r1 r2, trace (exec env s (init (start cmd proc)))
                     = [start_in_ev env cmd; start_out_ev env cmd; start_ev env cmd;
                        EvCall Main (ReadCloser_Close (start_out env cmd)) r1;
                        EvCall Main (WriteCloser_Close (start_in env cmd)) r2]
      | None, None, None =>
          res = (Some (mkIoPipe (start_out env cmd) (start_in env cmd) proc), None)
          ∧ trace (exec env s (init (start cmd proc)))
            = [start_in_ev env cmd; start_out_ev env cmd; start_ev env cmd]
      end.
Proof.
  split.
  - destruct (main_can_finish env (start cmd proc) [] [] [] []) as (s & _ & Hs).
    exists s. by apply is_ret_returned.
  - intros s res Hres.
    destruct (start_runs env cmd proc s res Hres) as [e H1|e r H1 H2|e r1 r2 H1 H2 H3|H1 H2 H3].
    + rewrite H1. done.
    + rewrite H1, H2. eauto.
    + rewrite H1, H2, H3. eauto.
    + rewrite H1, H2, H3. done.
Qed.

Lemma start_failure_releases_pipes_witness :
  (None, Some (Foreign "exec: file not found"))
  = (None : option ioPipe, Some (Foreign "exec: file not found"))
  ∧ ∃ r1 r2,
      trace (exec (env_of start_fails) [RunMain; RunMain; RunMain; RunMain; RunMain]
               (init (start 0 NilProcess)))
      = [EvCall Main (StdinPipe 0) None; EvCall Main (StdoutPipe 0) None;
         EvCall Main (Start 0) (Some (Foreign "exec: file not found"));
         EvCall Main (ReadCloser_Close 2) r1;
         EvCall Main (WriteCloser_Close 1) r2].
Proof.
  exact (proj2 (start_failure_releases_pipes (env_of start_fails) 0 NilProcess)
           [RunMain; RunMain; RunMain; RunMain; RunMain]
           (None, Some (Foreign "exec: file not found")) eq_refl).
Defined.

(** ** [closeProc]: the reachable configurations *)

Lemma by_main_snoc (evs : list event) (ev : event) :
  by_main (evs ++ [ev])
  = by_main evs ++ (if of_goroutine ev then [] else [ev]).
Proof. unfold by_main. rewrite List.filter_app. simpl. by destruct (of_goroutine ev). Qed.

Lemma by_go_snoc (evs : list event) (ev : event) :
  by_go (evs ++ [ev])
  = by_go evs ++ (if of_goroutine ev then [ev] else []).
Proof. unfold by_go. rewrite List.filter_app. simpl. by destruct (of_goroutine ev). Qed.

(** Close a goal [cp_state _ _ _ cfg] after a step. *)
Ltac cp_close :=
  rewrite <- ?(assoc_L (++));
  econstructor;
  rewrite ?by_main_snoc, ?by_go_snoc; simpl; rewrite ?app_nil_r;
  first [ eassumption
        | match goal with H : _ = _ |- _ => rewrite <- H end; by econstructor
        | match goal with H : _ = _ |- _ => by rewrite H end
        | by econstructor ].

Ltac cp_run Hg :=
  match goal with
  | |- cp_state _ _ _ (step _ ?c _) => destruct c as [|[|?]|]
  end;
  simpl; unfold step_main, step_go, step_timer; simpl;
  [ idtac
  | inversion Hg; subst; simpl
  | inversion Hg; subst; simpl
  | idtac ].

Lemma cp_state_step (env : environment) (iop : ioPipe) (S : list Cmd)
    (tr0 : list event) (c : choice) (cfg : config error) :
  cp_state iop S tr0 cfg → cp_state iop S tr0 (step env c cfg).
Proof.
  intros H. destruct H as [| |T sent evs Hg Hm|T sent evs e Hg Hm|T sent evs Hg Hm
                           |T evs v Hg Hm|T sent evs Hg Hm|T sent evs k Hg Hm].
  - destruct c as [|i|]; simpl; by constructor.
  - destruct c as [|i|]; simpl; try by constructor.
    unfold step_main; simpl. rewrite <- (assoc_L (++)).
    apply (cp_at_signal iop S tr0 [waiter (proc iop) 0] None [EvMakeChan 0; EvGo 0]);
      [constructor|done].
  - cp_run Hg; try destruct (answer env (tr0 ++ evs) (Signal (proc iop))); cp_close.
  - cp_run Hg; cp_close.
  - cp_run Hg; try cp_close. destruct sent; cp_close.
  - cp_run Hg; cp_close.
  - cp_run Hg; try cp_close.
    replace (match answer env (tr0 ++ evs) (Kill (proc iop)) with
             | Some e => Ret (Some (killError e))
             | None => Ret (Some errProcStopTimeout)
             end)
      with (Ret (kill_result (answer env (tr0 ++ evs) (Kill (proc iop)))))
      by (by destruct (answer env (tr0 ++ evs) (Kill (proc iop)))).
    cp_close.
  - cp_run Hg; cp_close.
Qed.

Lemma cp_state_exec (env : environment) (iop : ioPipe) (S : list Cmd)
    (tr0 : list event) (s : list choice) :
  cp_state iop S tr0 (exec env s (mkConfig (closeProc iop) [] [] S tr0)).
Proof.
  apply (exec_invariant env (cp_state iop S tr0)).
  - intros c cfg. apply cp_state_step.
  - constructor.
Qed.

Lemma count_by_thread (f : event → bool) (evs : list event) :
  count f evs = count f (by_main evs) + count f (by_go evs).
Proof.
  unfold count, by_main, by_go. induction evs as [|ev evs IH]; simpl; [done|].
  destruct (of_goroutine ev), (f ev) eqn:Hf; simpl; rewrite ?Hf; simpl; lia.
Qed.

Lemma count_snoc (f : event → bool) (evs : list event) (ev : event) :
  count f (evs ++ [ev]) = count f evs + (if f ev then 1 else 0).
Proof.
  unfold count. rewrite List.filter_app, length_app. simpl. by destruct (f ev).
Qed.

(** An event belongs to the calling thread or to a goroutine. *)
Lemma In_by_thread (ev : event) (evs : list event) :
  In ev evs ↔ In ev (by_main evs) ∨ In ev (by_go evs).
Proof.
  unfold by_main, by_go. rewrite !List.filter_In.
  destruct (of_goroutine ev); simpl; intuition congruence.
Qed.

Lemma go_state_events (p : osProcess) (T : list task) (sent : option error)
    (gevs : list event) :
  go_state p T sent gevs → go_events p gevs.
Proof. intros [|w|w]; unfold go_events; eauto. Qed.

Lemma closeProc_returned (env : environment) (iop : ioPipe) (S : list Cmd)
    (tr0 : list event) (s : list choice) (res : error) :
  let cfg := exec env s (mkConfig (closeProc iop) [] [] S tr0) in
  returned cfg = Some res →
  ∃ evs, trace cfg = tr0 ++ evs
         ∧ cp_outcome (proc iop) res (by_main evs) (by_go evs)
         ∧ go_events (proc iop) (by_go evs).
Proof.
  simpl. intros Hres. pose proof (cp_state_exec env iop S tr0 s) as Hst.
  destruct Hst as [| |T sent evs Hg Hm|T sent evs e Hg Hm|T sent evs Hg Hm
                   |T evs v Hg Hm|T sent evs Hg Hm|T sent evs k Hg Hm];
    simpl in Hres; try done; injection Hres as <-; exists evs;
    (split; [done|]); (split; [|by eapply go_state_events]); unfold cp_outcome.
  - left. eauto.
  - right. left. split; [done|]. by inversion Hg.
  - right. right. eauto.
Qed.

(** ** The shutdown protocol: the three ways out *)

Lemma length_append (s1 s2 : string) :
  String.length (s1 +:+ s2) = String.length s1 + String.length s2.
Proof. induction s1 as [|a s1 IH]; simpl; [done|]. by rewrite IH. Qed.

(** The error made from a failed kill is a value of its own. *)
Lemma killError_fresh (e : err) : killError e ≠ errProcStopTimeout ∧ killError e ≠ e.
Proof.
  split; [done|]. unfold killError. destruct e as [|msg|msg]; simpl; try done.
  intros [= He]. apply (f_equal String.length) in He.
  rewrite length_append in He. simpl in He. lia.
Qed.

(** C3.  On every run of [closeProc] that returns after the select took
    its timeout case, the calling thread has called [Kill] on the process,
    and the value returned is decided by the answer of [Kill] alone: when
    [Kill] succeeded it is [errProcStopTimeout], whatever [Wait] has
    answered or will answer, so it is no error reported by a collaborator;
    when [Kill] failed with [e] it is the [fmt.Errorf] value whose text is
    the fixed prefix followed by the text of [e], a value that is neither
    [errProcStopTimeout] nor [e] itself. *)
Theorem closeProc_timeout_kill (env : environment) (iop : ioPipe)
    (s : list choice) (res : error) :
  returned (exec env s (init (closeProc iop))) = Some res →
  In EvTimeout (trace (exec env s (init (closeProc iop)))) →
  ∃ k, In (EvCall Main (Kill (proc iop)) k) (trace (exec env s (init (closeProc iop))))
       ∧ match k with
         | None =>
             res = Some errProcStopTimeout
             ∧ ∀ msg, res ≠ Some (Foreign msg)
         | Some e =>
             res = Some (Errorf ("error killing process after timeout: " +:+ Error e))
             ∧ res ≠ Some errProcStopTimeout ∧ res ≠ Some e
         end.
Proof.
  intros Hres Hto.
  destruct (closeProc_returned env iop [] [] s res Hres) as (evs & Htr & Hout & _).
  unfold init in *. rewrite Htr in *. simpl in *.
  apply In_by_thread in Hto. destruct Hto as [Hto|Hto];
    [|by apply List.filter_In in Hto as [_ ?]].
  destruct Hout as [(e & -> & Hm)|[(Hm & Hg)|(k & -> & Hm)]]; rewrite Hm in Hto;
    simpl in Hto; try (exfalso; intuition discriminate).
  exists k. split.
  - apply In_by_thread. left. rewrite Hm. simpl. tauto.
  - destruct k as [e|]; simpl; [|done].
    split; [done|]. destruct (killError_fresh e) as [H1 H2].
    split; intros He; [apply H1|apply H2]; congruence.
Qed.

Lemma closeProc_timeout_kill_witness :
  ∃ k, In (EvCall Main (Kill (Pid 7)) k)
         (trace (exec (env_of all_succeed)
                   [RunMain; RunMain; RunMain; TimerFires; RunMain]
                   (init (closeProc iop7))))
       ∧ match k with
         | None =>
             Some errProcStopTimeout = Some errProcStopTimeout
             ∧ ∀ msg, Some errProcStopTimeout ≠ Some (Foreign msg)
         | Some e =>
             Some errProcStopTimeout
             = Some (Errorf ("error killing process after timeout: " +:+ Error e))
             ∧ Some errProcStopTimeout ≠ Some errProcStopTimeout
             ∧ Some errProcStopTimeout ≠ Some e
         end.
Proof.
  apply (closeProc_timeout_kill (env_of all_succeed) iop7
           [RunMain; RunMain; RunMain; TimerFires; RunMain]
           (Some errProcStopTimeout)).
  - reflexivity.
  - simpl. tauto.
Defined.

(** The same run when [Kill] fails: the error returned carries the text
    of the kill failure, and the goroutine may still finish afterwards. *)
Example closeProc_kill_failure :
  returned (exec (env_of kill_fails) [RunMain; RunMain; RunMain; TimerFires; RunMain]
              (init (closeProc iop7)))
  = Some (Some (Errorf "error killing process after timeout: os: process already finished"))
  ∧ tasks (exec (env_of kill_fails)
             [RunMain; RunMain; RunMain; TimerFires; RunMain; RunGo 0; RunGo 0]
             (init (closeProc iop7)))
    = [TDone].
Proof. done. Qed.

(** No goroutine of [closeProc] and no step of its calling thread other
    than the one after the timeout calls [Kill]. *)
Lemma go_events_no_kill (p : osProcess) (gevs : list event) (t : thread)
    (q : osProcess) (k : error) :
  go_events p gevs → ¬ In (EvCall t (Kill q) k) gevs.
Proof.
  intros [->|(w & [->| ->])] Hin; simpl in Hin; intuition discriminate.
Qed.

(** C4, as the code has it.  On every run of [closeProc] that returns
    after the select took its receive case (the goroutine had delivered
    the result of the wait on the channel before the timeout case was
    taken), the value returned is the error [Wait] answered in the
    goroutine (nil when it answered nil), and [Kill] was called by nobody
    on that run. *)
Theorem closeProc_wait_first (env : environment) (iop : ioPipe)
    (s : list choice) (res : error) (ch : chan) (v : error) :
  returned (exec env s (init (closeProc iop))) = Some res →
  In (EvRecv ch v) (trace (exec env s (init (closeProc iop)))) →
  res = v
  ∧ In (EvCall (Goroutine 0) (Wait (proc iop)) v)
       (trace (exec env s (init (closeProc iop))))
  ∧ ∀ t q k, ¬ In (EvCall t (Kill q) k) (trace (exec env s (init (closeProc iop)))).
Proof.
  intros Hres Hrecv.
  destruct (closeProc_returned env iop [] [] s res Hres) as (evs & Htr & Hout & Hgo).
  unfold init in *. rewrite Htr in *. simpl in *.
  apply In_by_thread in Hrecv. destruct Hrecv as [Hrecv|Hrecv];
    [|by apply List.filter_In in Hrecv as [_ ?]].
  destruct Hout as [(e & -> & Hm)|[(Hm & Hg)|(k & -> & Hm)]]; rewrite Hm in Hrecv;
    simpl in Hrecv; try (exfalso; intuition discriminate).
  assert (res = v) as -> by (intuition congruence).
  split; [done|]. split.
  - apply In_by_thread. right. rewrite Hg. simpl. tauto.
  - intros t q k Hk. apply In_by_thread in Hk. destruct Hk as [Hk|Hk].
    + rewrite Hm in Hk. simpl in Hk. intuition discriminate.
    + by apply (go_events_no_kill (proc iop)) in Hk.
Qed.

Lemma closeProc_wait_first_witness :
  Some (Foreign "exit status 1") = Some (Foreign "exit status 1")
  ∧ In (EvCall (Goroutine 0) (Wait (Pid 7)) (Some (Foreign "exit status 1")))
       (trace (exec (env_of wait_reports)
                 [RunMain; RunMain; RunMain; RunGo 0; RunGo 0; RunMain]
                 (init (closeProc iop7))))
  ∧ ∀ t q k,
      ¬ In (EvCall t (Kill q) k)
          (trace (exec (env_of wait_reports)
                    [RunMain; RunMain; RunMain; RunGo 0; RunGo 0; RunMain]
                    (init (closeProc iop7)))).
Proof.
  apply (closeProc_wait_first (env_of wait_reports) iop7
           [RunMain; RunMain; RunMain; RunGo 0; RunGo 0; RunMain]
           (Some (Foreign "exit status 1")) 0 (Some (Foreign "exit status 1"))).
  - reflexivity.
  - simpl. tauto.
Defined.

(** C4, as stated, fails: here [Wait] returns, with the error the process
    exited with, before the timeout is taken; the goroutine has not yet
    sent that result when the timer fires, so the select takes its timeout
    case, [Kill] is called, and [closeProc] returns [errProcStopTimeout]
    and not the error [Wait] reported. *)
Lemma closeProc_wait_returned_then_timeout :
  returned (exec (env_of wait_reports)
              [RunMain; RunMain; RunMain; RunGo 0; TimerFires; RunMain; RunGo 0]
              (init (closeProc iop7)))
  = Some (Some errProcStopTimeout)
  ∧ trace (exec (env_of wait_reports)
             [RunMain; RunMain; RunMain; RunGo 0; TimerFires; RunMain; RunGo 0]
             (init (closeProc iop7)))
    = [EvMakeChan 0; EvGo 0; EvCall Main (Signal (Pid 7)) None;
       EvCall (Goroutine 0) (Wait (Pid 7)) (Some (Foreign "exit status 1"));
       EvTimeout; EvCall Main (Kill (Pid 7)) None;
       EvSend 0 0 (Some (Foreign "exit status 1"))].
Proof. done. Qed.

(** Filtering keeps the order: an element of the filtered list splits the
    list itself. *)
Lemma filter_split {A : Type} (f : A → bool) (l l1 l2 : list A) (x : A) :
  List.filter f l = l1 ++ x :: l2 →
  ∃ l1' l2', l = l1' ++ x :: l2'
             ∧ List.filter f l1' = l1 ∧ List.filter f l2' = l2.
Proof.
  revert l1. induction l as [|a l IH]; intros l1 H; simpl in H.
  - by destruct l1.
  - destruct (f a) eqn:Hfa.
    + destruct l1 as [|b l1]; simpl in H; injection H as -> H.
      * exists [], l. done.
      * destruct (IH l1 H) as (l1' & l2' & -> & H1 & H2).
        exists (b :: l1'), l2'. simpl. rewrite Hfa, H1. done.
    + destruct (IH l1 H) as (l1' & l2' & -> & H1 & H2).
      exists (a :: l1'), l2'. simpl. rewrite Hfa. done.
Qed.

(** What holds as soon as the signal has failed, returned or not. *)
Lemma closeProc_signal_failed (env : environment) (iop : ioPipe)
    (s : list choice) (e : err) :
  let cfg := exec env s (init (closeProc iop)) in
  In (EvCall Main (Signal (proc iop)) (Some e)) (trace cfg) →
  returned cfg = Some (Some e)
  ∧ by_main (trace cfg)
    = [EvMakeChan 0; EvGo 0; EvCall Main (Signal (proc iop)) (Some e)]
  ∧ go_events (proc iop) (by_go (trace cfg))
  ∧ count is_wait (trace (exec env [RunGo 0] cfg)) = 1.
Proof.
  simpl. intros Hin. pose proof (cp_state_exec env iop [] [] s) as Hst.
  unfold init in *.
  destruct Hst as [| |T sent evs Hg Hm|T sent evs e' Hg Hm|T sent evs Hg Hm
                   |T evs v Hg Hm|T sent evs Hg Hm|T sent evs k Hg Hm];
    simpl in *; try (exfalso; intuition discriminate);
    apply In_by_thread in Hin; (destruct Hin as [Hin|Hin];
      [|by apply List.filter_In in Hin as [_ ?]]);
    rewrite Hm in Hin; simpl in Hin; try (exfalso; intuition discriminate).
  assert (e' = e) as -> by (intuition congruence).
  split; [done|]. split; [done|]. split; [by eapply go_state_events|].
  unfold step_go; simpl.
  inversion Hg as [Ht Hs Hgo|w Ht Hs Hgo|w Ht Hs Hgo]; subst; simpl;
    rewrite ?count_snoc, (count_by_thread _ evs), Hm, <- Hgo; done.
Qed.

(** C5, as the code has it.  As soon as [Signal] has failed with [e],
    [closeProc] has returned [e]; nobody calls [Kill] on that run, and the
    calling thread neither receives the result of the wait nor takes the
    timeout.  The goroutine that calls [Wait] was started before the
    signal was sent: give it one step and [Wait] has been called on the
    process, exactly once. *)
Theorem closeProc_signal_failure (env : environment) (iop : ioPipe)
    (s : list choice) (e : err) :
  In (EvCall Main (Signal (proc iop)) (Some e))
     (trace (exec env s (init (closeProc iop)))) →
  returned (exec env s (init (closeProc iop))) = Some (Some e)
  ∧ (∀ t q k, ¬ In (EvCall t (Kill q) k) (trace (exec env s (init (closeProc iop)))))
  ∧ (∀ ch v, ¬ In (EvRecv ch v) (trace (exec env s (init (closeProc iop)))))
  ∧ ¬ In EvTimeout (trace (exec env s (init (closeProc iop))))
  ∧ (∃ tr1 tr2,
       trace (exec env s (init (closeProc iop)))
       = tr1 ++ EvCall Main (Signal (proc iop)) (Some e) :: tr2
       ∧ In (EvGo 0) tr1)
  ∧ count is_wait (trace (exec env [RunGo 0] (exec env s (init (closeProc iop))))) = 1.
Proof.
  intros Hin.
  destruct (closeProc_signal_failed env iop s e Hin) as (Hret & Hm & Hgo & Hwait).
  split; [done|].
  assert (∀ ev, of_goroutine ev = false → In ev (trace (exec env s (init (closeProc iop)))) →
                In ev [EvMakeChan 0; EvGo 0; EvCall Main (Signal (proc iop)) (Some e)])
    as Hmain.
  { intros ev Hev Hin'. apply In_by_thread in Hin'. destruct Hin' as [Hin'|Hin'].
    - by rewrite Hm in Hin'.
    - apply List.filter_In in Hin' as [_ ?]. congruence. }
  split; [|split; [|split; [|split; [|done]]]].
  - intros t q k Hk. apply In_by_thread in Hk. destruct Hk as [Hk|Hk].
    + rewrite Hm in Hk. simpl in Hk. intuition discriminate.
    + by apply (go_events_no_kill (proc iop)) in Hk.
  - intros ch v Hr. apply Hmain in Hr; [|done]. simpl in Hr. intuition discriminate.
  - intros Hr. apply Hmain in Hr; [|done]. simpl in Hr. intuition discriminate.
  - unfold by_main in Hm.
    apply (filter_split _ _ [EvMakeChan 0; EvGo 0] []) in Hm
      as (tr1 & tr2 & Htr & H1 & _).
    exists tr1, tr2. split; [done|].
    assert (In (EvGo 0) (List.filter (λ ev, negb (of_goroutine ev)) tr1)) as Hgo1
      by (rewrite H1; simpl; tauto).
    by apply List.filter_In in Hgo1 as [? _].
Qed.

Lemma closeProc_signal_failure_witness :
  returned (exec (env_of signal_fails) [RunMain; RunMain; RunMain]
              (init (closeProc iop7)))
  = Some (Some (Foreign "os: process already finished"))
  ∧ (∀ t q k,
       ¬ In (EvCall t (Kill q) k)
           (trace (exec (env_of signal_fails) [RunMain; RunMain; RunMain]
                     (init (closeProc iop7)))))
  ∧ (∀ ch v,
       ¬ In (EvRecv ch v)
           (trace (exec (env_of signal_fails) [RunMain; RunMain; RunMain]
                     (init (closeProc iop7)))))
  ∧ ¬ In EvTimeout
        (trace (exec (env_of signal_fails) [RunMain; RunMain; RunMain]
                  (init (closeProc iop7))))
  ∧ (∃ tr1 tr2,
       trace (exec (env_of signal_fails) [RunMain; RunMain; RunMain]
                (init (closeProc iop7)))
       = tr1 ++ EvCall Main (Signal (Pid 7))
                  (Some (Foreign "os: process already finished")) :: tr2
       ∧ In (EvGo 0) tr1)
  ∧ count is_wait
      (trace (exec (env_of signal_fails) [RunGo 0]
                (exec (env_of signal_fails) [RunMain; RunMain; RunMain]
                   (init (closeProc iop7)))))
    = 1.
Proof.
  apply (closeProc_signal_failure (env_of signal_fails) iop7
           [RunMain; RunMain; RunMain] (Foreign "os: process already finished")).
  simpl. tauto.
Defined.

(** C5, as stated, fails: here the signal fails and [closeProc] returns
    that error, yet [Wait] has been called on the process, once by a
    goroutine that ran before the signal was sent and once by one that ran
    after [closeProc] had returned. *)
Lemma closeProc_signal_failure_still_waits :
  (returned (exec (env_of signal_fails) [RunMain; RunMain; RunGo 0; RunMain]
               (init (closeProc iop7)))
   = Some (Some (Foreign "os: process already finished"))
   ∧ trace (exec (env_of signal_fails) [RunMain; RunMain; RunGo 0; RunMain]
              (init (closeProc iop7)))
     = [EvMakeChan 0; EvGo 0; EvCall (Goroutine 0) (Wait (Pid 7)) None;
        EvCall Main (Signal (Pid 7)) (Some (Foreign "os: process already finished"))])
  ∧ (returned (exec (env_of signal_fails) [RunMain; RunMain; RunMain]
                 (init (closeProc iop7)))
     = Some (Some (Foreign "os: process already finished"))
     ∧ trace (exec (env_of signal_fails) [RunMain; RunMain; RunMain; RunGo 0]
                (init (closeProc iop7)))
       = [EvMakeChan 0; EvGo 0;
          EvCall Main (Signal (Pid 7)) (Some (Foreign "os: process already finished"));
          EvCall (Goroutine 0) (Wait (Pid 7)) None]).
Proof. done. Qed.

(** ** The wait goroutine *)

(** At most one wait, one send and one receive in every reachable
    configuration of [closeProc]. *)
Lemma cp_state_counts (iop : ioPipe) (cfg : config error) :
  cp_state iop [] [] cfg →
  count is_wait (trace cfg) ≤ 1 ∧ count is_send (trace cfg) ≤ 1
  ∧ count is_recv (trace cfg) ≤ 1.
Proof.
  intros Hst.
  destruct Hst as [| |T sent evs Hg Hm|T sent evs e' Hg Hm|T sent evs Hg Hm
                   |T evs v Hg Hm|T sent evs Hg Hm|T sent evs k Hg Hm];
    simpl; try (unfold count; simpl; lia);
    rewrite !(count_by_thread _ evs), Hm;
    apply go_state_events in Hg as [->|(w & [->| ->])];
    unfold count; simpl; lia.
Qed.

(** The goroutine is never held up: its two steps go through whatever the
    calling thread has done. *)
Lemma cp_state_goroutine_finishes (env : environment) (iop : ioPipe)
    (cfg : config error) :
  cp_state iop [] [] cfg →
  In (EvGo 0) (trace cfg) →
  tasks (exec env [RunGo 0; RunGo 0] cfg) = [TDone].
Proof.
  intros Hst Hin.
  destruct Hst as [| |T sent evs Hg Hm|T sent evs e' Hg Hm|T sent evs Hg Hm
                   |T evs v Hg Hm|T sent evs Hg Hm|T sent evs k Hg Hm];
    simpl in Hin; try (exfalso; intuition discriminate);
    inversion Hg; subst; done.
Qed.

(** Once the timeout case is taken the calling thread needs one step of
    its own to return. *)
Lemma cp_state_after_timeout (env : environment) (iop : ioPipe)
    (cfg : config error) :
  cp_state iop [] [] cfg →
  In EvTimeout (trace cfg) →
  returned (exec env [RunMain] cfg) ≠ None.
Proof.
  intros Hst Hin.
  destruct Hst as [| |T sent evs Hg Hm|T sent evs e' Hg Hm|T sent evs Hg Hm
                   |T evs v Hg Hm|T sent evs Hg Hm|T sent evs k Hg Hm];
    simpl in Hin; try (exfalso; intuition discriminate);
    try (apply In_by_thread in Hin; (destruct Hin as [Hin|Hin];
           [|by apply List.filter_In in Hin as [_ ?]]);
         rewrite Hm in Hin; simpl in Hin; exfalso; intuition discriminate).
  - simpl. unfold step_main; simpl. by destruct (answer env _ _).
  - done.
Qed.

(** C8.  In every configuration [closeProc] can reach, under every
    environment and schedule: once the goroutine has been started its own
    two steps (the return of [Wait] and the send) go through, whatever the
    calling thread has done in the meantime, the timeout included, and the
    goroutine is then finished; [Wait] has been called at most once, the
    result sent at most once and received at most once; and once the
    timeout case is taken one step of the calling thread alone makes
    [closeProc] return. *)
Theorem closeProc_wait_task (env : environment) (iop : ioPipe) (s : list choice) :
  (In (EvGo 0) (trace (exec env s (init (closeProc iop)))) →
   tasks (exec env [RunGo 0; RunGo 0] (exec env s (init (closeProc iop)))) = [TDone])
  ∧ count is_wait (trace (exec env s (init (closeProc iop)))) ≤ 1
  ∧ count is_send (trace (exec env s (init (closeProc iop)))) ≤ 1
  ∧ count is_recv (trace (exec env s (init (closeProc iop)))) ≤ 1
  ∧ (In EvTimeout (trace (exec env s (init (closeProc iop)))) →
     returned (exec env [RunMain] (exec env s (init (closeProc iop)))) ≠ None).
Proof.
  pose proof (cp_state_exec env iop [] [] s) as Hst.
  split; [by apply (cp_state_goroutine_finishes env iop)|].
  destruct (cp_state_counts iop _ Hst) as (H1 & H2 & H3).
  repeat split; try done. by apply (cp_state_after_timeout env iop).
Qed.

Lemma closeProc_wait_task_witness :
  tasks (exec (env_of all_succeed) [RunGo 0; RunGo 0]
           (exec (env_of all_succeed)
              [RunMain; RunMain; RunMain; TimerFires; RunMain]
              (init (closeProc iop7))))
  = [TDone]
  ∧ returned (exec (env_of all_succeed) [RunMain]
                (exec (env_of all_succeed) [RunMain; RunMain; RunMain; TimerFires]
                   (init (closeProc iop7))))
    ≠ None.
Proof.
  split.
  - apply (proj1 (closeProc_wait_task (env_of all_succeed) iop7
                    [RunMain; RunMain; RunMain; TimerFires; RunMain])).
    simpl. tauto.
  - apply (proj2 (proj2 (proj2 (proj2
             (closeProc_wait_task (env_of all_succeed) iop7
                [RunMain; RunMain; RunMain; TimerFires]))))).
    simpl. tauto.
Defined.

(** ** [ioPipe.Close] *)

Lemma step_with_main_ret {A B : Type} (env : environment) (c : choice)
    (cfg : config A) (b : B) :
  is_ret (main cfg) = true →
  step env c (with_main (Ret b) cfg) = with_main (Ret b) (step env c cfg).
Proof.
  intros Hret. destruct c as [|i|]; simpl.
  - unfold step_main. destruct (main cfg); done.
  - apply step_go_with_main.
  - unfold step_timer. destruct (main cfg); done.
Qed.

(** Mapping the value returned commutes with running. *)
Lemma exec_bind_pure {A B : Type} (env : environment) (f : A → B) (s : list choice) :
  ∀ cfg : config A,
    exec env s (with_main (bind (main cfg) (λ a, Ret (f a))) cfg)
    = with_main (bind (main (exec env s cfg)) (λ a, Ret (f a))) (exec env s cfg).
Proof.
  induction s as [|c s IH]; intros cfg; simpl; [done|].
  destruct (is_ret (main cfg)) eqn:Hret.
  - destruct (main cfg) as [a| | | | | | | |] eqn:Hm; try done. simpl.
    rewrite step_with_main_ret by (by rewrite Hm).
    rewrite <- IH. by rewrite (step_returned env c cfg a Hm).
  - rewrite step_bind by done. apply IH.
Qed.

Lemma returned_bind_pure {A B : Type} (f : A → B) (cfg : config A) (b : B) :
  returned (with_main (bind (main cfg) (λ a, Ret (f a))) cfg) = Some b →
  ∃ a, returned cfg = Some a ∧ b = f a.
Proof.
  unfold returned, with_main; simpl.
  destruct (main cfg) as [a| | | | | | | |]; simpl; try done.
  intros [= <-]. eauto.
Qed.

Lemma Close_runs (env : environment) (iop : ioPipe) (s : list choice) (res : error) :
  returned (exec env s (init (Close iop))) = Some res →
  ∃ s' procErr,
    returned (exec env s' (closeProc_in_Close env iop)) = Some procErr
    ∧ trace (exec env s (init (Close iop)))
      = trace (exec env s' (closeProc_in_Close env iop))
    ∧ res = overwrite (overwrite (close_read_err env iop) (close_write_err env iop))
              procErr.
Proof.
  unfold init, Close.
  only_main s1; [done|].
  only_main s2; [done|].
  fold (close_read_err env iop). fold (close_read_ev env iop).
  fold (close_write_err env iop). fold (close_write_ev env iop).
  pose proof (exec_bind_pure env
                (overwrite (overwrite (close_read_err env iop) (close_write_err env iop)))
                s2 (closeProc_in_Close env iop)) as Hexec.
  unfold with_main in Hexec at 1. simpl in Hexec.
  rewrite Hexec. intros Hres.
  apply returned_bind_pure in Hres as (procErr & Hret & ->).
  exists s2, procErr. done.
Qed.

(** C2.  [ioPipe.Close] returns under every environment.  On every run
    that returns, the trace starts with the read side's Close and then the
    write side's Close, whatever they answered; what follows is a complete
    run of [closeProc] on the process handle, which called [Signal] and
    returned [procErr]; and the value returned is [procErr] when it is not
    nil, else the write side's error when it is not nil, else the read
    side's error (nil when all three succeeded). *)
Theorem Close_all_steps (env : environment) (iop : ioPipe) :
  (∃ s, returned (exec env s (init (Close iop))) ≠ None)
  ∧ ∀ (s : list choice) (res : error),
      returned (exec env s (init (Close iop))) = Some res →
      ∃ s' procErr evs r,
        trace (exec env s (init (Close iop)))
        = EvCall Main (ReadCloser_Close (iopReadCloser iop)) (close_read_err env iop)
          :: EvCall Main (WriteCloser_Close (iopWriteCloser iop)) (close_write_err env iop)
          :: evs
        ∧ In (EvCall Main (Signal (proc iop)) r) evs
        ∧ returned (exec env s' (closeProc_in_Close env iop)) = Some procErr
        ∧ trace (exec env s' (closeProc_in_Close env iop))
          = close_read_ev env iop :: close_write_ev env iop :: evs
        ∧ res = match procErr with
                | Some _ => procErr
                | None => match close_write_err env iop with
                          | Some _ => close_write_err env iop
                          | None => close_read_err env iop
                          end
                end.
Proof.
  split.
  - destruct (main_can_finish env (Close iop) [] [] [] []) as (s & _ & Hs).
    exists s. by apply is_ret_returned.
  - intros s res Hres.
    destruct (Close_runs env iop s res Hres) as (s' & procErr & Hret & Htr & ->).
    destruct (closeProc_returned env iop [] [close_read_ev env iop; close_write_ev env iop]
                s' procErr Hret) as (evs & Htr' & Hout & _).
    assert (∃ r, In (EvCall Main (Signal (proc iop)) r) evs) as [r Hr].
    { destruct Hout as [(e & _ & Hm)|[(Hm & _)|(k & _ & Hm)]];
        eexists; apply In_by_thread; left; rewrite Hm; simpl; eauto. }
    exists s', procErr, evs, r. unfold closeProc_in_Close in *.
    rewrite Htr, Htr'. repeat split; done.
Qed.

Lemma Close_all_steps_witness :
  ∃ s' procErr evs r,
    trace (exec (env_of all_fail) [RunMain; RunMain; RunMain; RunMain; RunMain]
             (init (Close iop7)))
    = EvCall Main (ReadCloser_Close 2) (Some (Foreign "read side"))
      :: EvCall Main (WriteCloser_Close 1) (Some (Foreign "write side"))
      :: evs
    ∧ In (EvCall Main (Signal (Pid 7)) r) evs
    ∧ returned (exec (env_of all_fail) s' (closeProc_in_Close (env_of all_fail) iop7))
      = Some procErr
    ∧ trace (exec (env_of all_fail) s' (closeProc_in_Close (env_of all_fail) iop7))
      = close_read_ev (env_of all_fail) iop7 :: close_write_ev (env_of all_fail) iop7
        :: evs
    ∧ Some (Foreign "os: process already finished")
      = match procErr with
        | Some _ => procErr
        | None => Some (Foreign "write side")
        end.
Proof.
  exact (proj2 (Close_all_steps (env_of all_fail) iop7)
           [RunMain; RunMain; RunMain; RunMain; RunMain]
           (Some (Foreign "os: process already finished")) eq_refl).
Defined.

(** ** Launching and closing: which process handle is used *)

Lemma started_after_call (store : list Cmd) (tr : list event) (t : thread)
    (c : call) (r : error) (h : nat) :
  length store = 1 →
  started store tr →
  started (after_call c r h store) (tr ++ [EvCall t c r]).
Proof.
  intros Hlen Hst. destruct store as [|cmd [|]]; try done. clear Hlen.
  unfold started in *. intros [t' Hin]. apply in_app_or in Hin.
  destruct c as [| | | | | | |[|n]]; simpl; try destruct r; simpl; eauto;
    try (destruct Hin as [Hin|Hin]; [by eauto|simpl in Hin; intuition discriminate]).
Qed.

Lemma after_call_length (c : call) (r : error) (h : nat) (store : list Cmd) :
  length (after_call c r h store) = length store.
Proof.
  unfold after_call. destruct c, r; try done. apply length_alter.
Qed.

Lemma started_no_call (store : list Cmd) (tr : list event) (ev : event) :
  (∀ t c r, ev ≠ EvCall t c r) →
  started store tr → started store (tr ++ [ev]).
Proof.
  intros Hev Hst [t Hin]. apply Hst. exists t.
  apply in_app_or in Hin as [Hin|[Hin|[]]]; [done|]. by apply Hev in Hin.
Qed.

Lemma safe_step {A : Type} (env : environment) (c : choice) (cfg : config A) :
  length (cmds cfg) = 1 → safe_config cfg →
  length (cmds (step env c cfg)) = 1 ∧ safe_config (step env c cfg).
Proof.
  intros Hlen [Hmain Htasks Htrace Hstore].
  destruct cfg as [m T C S tr]; simpl in *.
  destruct c as [|i|]; simpl.
  - unfold step_main; simpl.
    inversion Hmain as [a|c k Hc Hk|c k Hc Hk|k Hk|t k Ht Hk|ch kr kt Hkr Hkt];
      subst; simpl.
    + done.
    + split; [by rewrite after_call_length|]. split; simpl; try done.
      * apply Forall_app. split; [done|]. by constructor.
      * by apply started_after_call.
    + split; [by rewrite after_call_length|]. split; simpl; try done.
      * apply Forall_app. split; [done|]. by constructor.
      * by apply started_after_call.
    + split; [done|]. split; simpl; try done.
      * apply Forall_app. split; [done|]. by constructor.
      * by apply started_no_call.
    + split; [done|]. split; simpl; try done.
      * apply Forall_app. split; [done|]. by constructor.
      * apply Forall_app. split; [done|]. by constructor.
      * by apply started_no_call.
    + destruct (C !! ch) as [[v|]|]; simpl; try done.
      split; [done|]. split; simpl; try done.
      * apply Forall_app. split; [done|]. by constructor.
      * by apply started_no_call.
  - unfold step_go; simpl.
    destruct (T !! i) as [[|c k|ch v k]|] eqn:Hi; simpl; try done.
    + pose proof (Forall_lookup_1 _ _ _ _ Htasks Hi) as Ht.
      inversion Ht as [|c' k' Hc Hk|]; subst.
      split; [by rewrite after_call_length|]. split; simpl; try done.
      * by apply Forall_insert.
      * apply Forall_app. split; [done|]. by constructor.
      * by apply started_after_call.
    + destruct (C !! ch) as [[w|]|]; simpl; try done.
      pose proof (Forall_lookup_1 _ _ _ _ Htasks Hi) as Ht.
      inversion Ht as [| |ch' v' k' Hk]; subst.
      split; [done|]. split; simpl; try done.
      * by apply Forall_insert.
      * apply Forall_app. split; [done|]. by constructor.
      * by apply started_no_call.
  - unfold step_timer; simpl.
    inversion Hmain as [a|c k Hc Hk|c k Hc Hk|k Hk|t k Ht Hk|ch kr kt Hkr Hkt];
      subst; simpl; try done.
    split; [done|]. split; simpl; try done.
    + apply Forall_app. split; [done|]. by constructor.
    + by apply started_no_call.
Qed.

Ltac safe_tac :=
  repeat first
    [ progress simpl
    | progress intros
    | match goal with
      | |- context [match ?r with _ => _ end] => is_var r; destruct r
      end
    | constructor ].

Lemma started_session_safe (cmd : commander) : safe (started_session cmd NilProcess).
Proof.
  unfold started_session, start, Close, closeProc, closeProc_go, closeProc_signal,
    closeProc_select, closeProc_kill, waiter, deferred_close_in, deferred_close_out.
  safe_tac.
Qed.

Lemma session_state_step (env : environment) (w : Writer) (path : string)
    (args : list string) (c : choice) (cfg : config (option error)) :
  session_state w path args cfg → session_state w path args (step env c cfg).
Proof.
  intros [| | |cfg' Hlen Hsafe].
  - destruct c as [|i|]; simpl; constructor.
  - destruct c as [|i|]; simpl; constructor.
  - destruct c as [|i|]; simpl; [|apply session_get..].
    unfold step_main; simpl. apply session_safe; [done|].
    split; simpl; try done.
    + apply started_session_safe.
    + intros [t []].
  - destruct (safe_step env c cfg' Hlen Hsafe). by apply session_safe.
Qed.

Lemma session_state_trace (w : Writer) (path : string) (args : list string)
    (cfg : config (option error)) :
  session_state w path args cfg →
  Forall (process_calls_on NilProcess) (trace cfg).
Proof. intros [| | |cfg' Hlen [_ _ Htr _]]; simpl; done. Qed.

Lemma session_state_exec (env : environment) (w : Writer) (path : string)
    (args : list string) (s : list choice) :
  session_state w path args
    (exec env s (init (launch_and_close StartProvider w path args))).
Proof.
  apply (exec_invariant env (session_state w path args)).
  - intros c cfg. apply session_state_step.
  - apply session_init.
Qed.

(** A successful launch: the channel holds the handle [makeCommand] read
    before [Start] ran, the nil one, and the command holds the process
    [Start] created. *)
Lemma StartProvider_runs (env : environment) (w : Writer) (path : string)
    (args : list string) (s : list choice) (rwc : ioPipe) :
  let cfg := exec env s (init (StartProvider w path args)) in
  returned cfg = Some (Some rwc, None) →
  proc rwc = NilProcess
  ∧ In (EvCall Main (Start 0) None) (trace cfg)
  ∧ Process <$> cmds cfg !! 0
    = Some (Pid (handle env [start_in_ev env 0; start_out_ev env 0] (Start 0))).
Proof.
  simpl. unfold init, StartProvider, makeCommand, start. simpl.
  only_main s1; [done|].
  only_main s2; [done|].
  only_main s3; [done|].
  only_main s4; [done|].
  unfold start_in_ev, start_out_ev, start_out_err, start_in_ev, start_in_err.
  destruct (answer env [] (StdinPipe 0)) as [e|] eqn:Hin; simpl.
  { by rewrite exec_finished. }
  only_main s5; [done|].
  destruct (answer env [EvCall Main (StdinPipe 0) None] (StdoutPipe 0))
    as [e|] eqn:Hout; simpl.
  { only_main s6; [done|]. by rewrite exec_finished. }
  only_main s6; [done|].
  destruct (answer env [EvCall Main (StdinPipe 0) None; EvCall Main (StdoutPipe 0) None]
              (Start 0)) as [e|] eqn:Hst; simpl.
  { only_main s7; [done|]. only_main s8; [done|]. by rewrite exec_finished. }
  rewrite exec_finished. simpl. intros [= <-]. simpl. tauto.
Qed.

Lemma StartProvider_uses_pre_start_handle : uses_pre_start_handle StartProvider.
Proof.
  intros env output path args s. split.
  - intros rwc Hret. by apply StartProvider_runs.
  - apply (session_state_trace output path args), session_state_exec.
Qed.

(** C10.  For each of [StartProvider], [StartProviderCodec] and
    [StartConsumer]: the process handle stored in a channel they return is
    the value [makeCommand] read from [cmd.Process] before [Start] ran,
    the nil handle, although [Start] has by then stored the process it
    created in the command; and every [Signal], [Wait] and [Kill] made
    when that channel is closed is made on the nil handle. *)
Theorem channel_holds_pre_start_handle :
  uses_pre_start_handle StartProvider
  ∧ uses_pre_start_handle StartProviderCodec
  ∧ uses_pre_start_handle StartConsumer.
Proof.
  split; [|split]; exact StartProvider_uses_pre_start_handle.
Qed.

Lemma channel_holds_pre_start_handle_witness :
  proc (mkIoPipe 2 1 NilProcess) = NilProcess
  ∧ In (EvCall Main (Start 0) None)
       (trace (exec (env_of all_succeed)
                 [RunMain; RunMain; RunMain; RunMain; RunMain; RunMain]
                 (init (StartProvider 9 "plugin" []))))
  ∧ Process <$> cmds (exec (env_of all_succeed)
                        [RunMain; RunMain; RunMain; RunMain; RunMain; RunMain]
                        (init (StartProvider 9 "plugin" []))) !! 0
    = Some (Pid 7).
Proof.
  exact (proj1 (proj1 channel_holds_pre_start_handle (env_of all_succeed) 9
                  "plugin" []
                  [RunMain; RunMain; RunMain; RunMain; RunMain; RunMain])
           (mkIoPipe 2 1 NilProcess) eq_refl).
Defined.

(** C1, on the code.  A plugin is launched with [StartProvider] and every
    call succeeds: [Start] creates process 7 and the command holds it.
    The channel is then closed; the process does not react, the timer
    fires and [Close] returns [errProcStopTimeout].  Yet [Signal], [Kill]
    and [Wait] were all made on the nil handle: nothing was ever sent to
    process 7. *)
Theorem launched_process_is_never_addressed :
  returned (exec (env_of all_succeed)
              [RunMain; RunMain; RunMain; RunMain; RunMain; RunMain; RunMain;
               RunMain; RunMain; RunMain; RunMain; TimerFires; RunMain;
               RunGo 0; RunGo 0]
              (init (launch_and_close StartProvider 9 "plugin" [])))
  = Some (Some (Some errProcStopTimeout))
  ∧ cmds (exec (env_of all_succeed)
            [RunMain; RunMain; RunMain; RunMain; RunMain; RunMain; RunMain;
             RunMain; RunMain; RunMain; RunMain; TimerFires; RunMain;
             RunGo 0; RunGo 0]
            (init (launch_and_close StartProvider 9 "plugin" [])))
    = [mkCmd "plugin" [] (Some 9) (Pid 7)]
  ∧ trace (exec (env_of all_succeed)
             [RunMain; RunMain; RunMain; RunMain; RunMain; RunMain; RunMain;
              RunMain; RunMain; RunMain; RunMain; TimerFires; RunMain;
              RunGo 0; RunGo 0]
             (init (launch_and_close StartProvider 9 "plugin" [])))
    = [EvCall Main (StdinPipe 0) None; EvCall Main (StdoutPipe 0) None;
       EvCall Main (Start 0) None; EvCall Main (ReadCloser_Close 2) None;
       EvCall Main (WriteCloser_Close 1) None; EvMakeChan 0; EvGo 0;
       EvCall Main (Signal NilProcess) None; EvTimeout;
       EvCall Main (Kill NilProcess) None;
       EvCall (Goroutine 0) (Wait NilProcess) None; EvSend 0 0 None].
Proof. done. Qed.

(** ** Calls through the nil pointer *)

(** A step only adds to the trace. *)
Lemma step_trace {A : Type} (env : environment) (c : choice) (cfg : config A) :
  ∃ evs, trace (step env c cfg) = trace cfg ++ evs.
Proof.
  destruct c as [|i|]; simpl.
  - unfold step_main.
    destruct (main cfg) as [| | | | | | | |ch kr kt]; simpl;
      try (by eexists); try (exists []; by rewrite app_nil_r).
    destruct (chans cfg !! ch) as [[v|]|]; simpl;
      try (by eexists); exists []; by rewrite app_nil_r.
  - unfold step_go.
    destruct (tasks cfg !! i) as [[|c k|ch v k]|]; simpl;
      try (by eexists); try (exists []; by rewrite app_nil_r).
    destruct (chans cfg !! ch) as [[w|]|]; simpl;
      try (by eexists); exists []; by rewrite app_nil_r.
  - unfold step_timer.
    destruct (main cfg); simpl; try (by eexists); exists []; by rewrite app_nil_r.
Qed.

Lemma exec_trace {A : Type} (env : environment) (s : list choice) (cfg : config A) :
  ∃ evs, trace (exec env s cfg) = trace cfg ++ evs.
Proof.
  revert cfg. induction s as [|c s IH]; intros cfg; simpl.
  - exists []. by rewrite app_nil_r.
  - destruct (IH (step env c cfg)) as [evs2 H2].
    destruct (step_trace env c cfg) as [evs1 H1].
    exists (evs1 ++ evs2). by rewrite H2, H1, (assoc_L (++)).
Qed.

Lemma exec_app {A : Type} (env : environment) (s1 s2 : list choice) (cfg : config A) :
  exec env (s1 ++ s2) cfg = exec env s2 (exec env s1 cfg).
Proof. revert cfg. induction s1 as [|c s1 IH]; intros cfg; simpl; [done|apply IH]. Qed.

Lemma panicked_snoc (tr : list event) (ev : event) :
  panicked (tr ++ [ev]) = panicked tr || nil_receiver ev.
Proof. unfold panicked. rewrite existsb_app. simpl. by rewrite orb_false_r. Qed.

(** A run that lives is the run of the scheduler, and nobody has called
    through the nil pointer. *)
Lemma run_Some {A : Type} (env : environment) (s : list choice) (cfg cfg' : config A) :
  panicked (trace cfg) = false →
  run env s cfg = Some cfg' →
  cfg' = exec env s cfg ∧ panicked (trace cfg') = false.
Proof.
  revert cfg. induction s as [|c s IH]; intros cfg H0 H; simpl in *.
  - by injection H as <-.
  - destruct (panicked (trace (step env c cfg))) eqn:Hp; [done|]. by apply IH.
Qed.

(** A schedule after which nobody has called through the nil pointer is
    a run that lives. *)
Lemma run_exec {A : Type} (env : environment) (s : list choice) (cfg : config A) :
  panicked (trace (exec env s cfg)) = false →
  run env s cfg = Some (exec env s cfg).
Proof.
  revert cfg. induction s as [|c s IH]; intros cfg H; simpl in *; [done|].
  destruct (panicked (trace (step env c cfg))) eqn:Hp; [|by apply IH].
  destruct (exec_trace env s (step env c cfg)) as [evs Hevs].
  rewrite Hevs in H. unfold panicked in *. rewrite existsb_app, Hp in H. done.
Qed.

Lemma sound_step {A : Type} (env : environment) (c : choice) (cfg : config A) :
  sound_config cfg → sound_config (step env c cfg).
Proof.
  intros [Hmain Htasks Htrace]. destruct cfg as [m T C S tr]; simpl in *.
  destruct c as [|i|]; simpl.
  - unfold step_main; simpl.
    inversion Hmain as [a|c k Hc Hk|c k Hc Hk|path args k Hk|c w k Hk|c k Hk|k Hk
                        |t k Ht Hk|ch kr kt Hkr Hkt]; subst; simpl;
      try (split; simpl; try done; rewrite panicked_snoc, Htrace; simpl; done).
    + split; simpl; try done.
      * apply Forall_app. split; [done|]. by constructor.
      * by rewrite panicked_snoc, Htrace.
    + destruct (C !! ch) as [[v|]|]; simpl; try done.
      split; simpl; try done. by rewrite panicked_snoc, Htrace.
  - unfold step_go; simpl.
    destruct (T !! i) as [[|c k|ch v k]|] eqn:Hi; simpl; try done.
    + pose proof (Forall_lookup_1 _ _ _ _ Htasks Hi) as Ht.
      inversion Ht as [|c' k' Hc Hk|]; subst.
      split; simpl; try done.
      * by apply Forall_insert.
      * rewrite panicked_snoc, Htrace. simpl. done.
    + destruct (C !! ch) as [[w|]|]; simpl; try done.
      pose proof (Forall_lookup_1 _ _ _ _ Htasks Hi) as Ht.
      inversion Ht as [| |ch' v' k' Hk]; subst.
      split; simpl; try done.
      * by apply Forall_insert.
      * by rewrite panicked_snoc, Htrace.
  - unfold step_timer; simpl.
    inversion Hmain as [a|c k Hc Hk|c k Hc Hk|path args k Hk|c w k Hk|c k Hk|k Hk
                        |t k Ht Hk|ch kr kt Hkr Hkt]; subst; simpl; try done.
    split; simpl; try done. by rewrite panicked_snoc, Htrace.
Qed.

Lemma sound_exec {A : Type} (env : environment) (s : list choice) (cfg : config A) :
  sound_config cfg → sound_config (exec env s cfg).
Proof.
  apply (exec_invariant env sound_config). intros c cfg'. apply sound_step.
Qed.

(** Every call of two successive [Close]s is made on the channel's own
    handle: when that is not the nil pointer, none is made through it. *)
Lemma Close_twice_sound (iop : ioPipe) :
  is_nil_process (proc iop) = false → sound (Close_twice iop).
Proof.
  intros Hp.
  unfold Close_twice, Close, closeProc, closeProc_go, closeProc_signal,
    closeProc_select, closeProc_kill, waiter.
  repeat first
    [ assumption
    | progress simpl
    | progress intros
    | match goal with
      | |- context [match ?r with _ => _ end] => is_var r; destruct r
      end
    | constructor ].
Qed.

(** ** Closing twice *)

Lemma waiter_of_weaken (C C' : list (option error)) (i : nat) (t : task) :
  (C !! i = Some None → C' !! i = Some None) →
  waiter_of C i t → waiter_of C' i t.
Proof. intros HC [->|[Ht Hi]]; [by left|right; auto]. Qed.

Lemma disc_step {A : Type} (env : environment) (c : choice) (cfg : config A) :
  disc_config cfg → disc_config (step env c cfg).
Proof.
  intros [Htasks Hmain]. destruct cfg as [m T C S tr]; simpl in *.
  destruct c as [|i|]; simpl.
  - unfold step_main; simpl.
    destruct Hmain as [[Hlen Hm]|(Hlen & Hnew & Hm)].
    + inversion Hm as [a|c k Hk|c k Hk|k Hk| |ch kr kt Hkr Hkt]; subst; simpl.
      * split; simpl; [done|by left].
      * split; simpl; [done|by left].
      * split; simpl; [done|by left].
      * split; simpl.
        -- intros i t Hi. apply (waiter_of_weaken C); [|by apply Htasks].
           intros HC. by apply lookup_app_l_Some.
        -- right. rewrite length_app; simpl. split; [lia|]. split.
           ++ rewrite <- Hlen. by rewrite lookup_app_r, Nat.sub_diag by lia.
           ++ rewrite <- Hlen. apply Hk.
      * destruct (C !! ch) as [[v|]|] eqn:Hch; simpl;
          try (split; simpl; [done|by left]).
        split; simpl.
        -- intros i t Hi. apply (waiter_of_weaken C); [|by apply Htasks].
           intros HC. destruct (decide (ch = i)) as [->|Hne].
           ++ apply list_lookup_insert_eq. by eapply lookup_lt_Some.
           ++ by rewrite list_lookup_insert_ne.
        -- left. by rewrite length_insert.
    + inversion Hm as [| | | |p ch k Hk|]; subst; simpl.
      split; simpl.
      * intros i t Hi. apply lookup_app_Some in Hi as [Hi|[Hge Hi]].
        -- by apply Htasks.
        -- destruct (i - length T) as [|n] eqn:Hn; simpl in Hi; [|done].
           injection Hi as <-. assert (i = length T) as -> by lia.
           right. split; [left; by eexists|done].
      * left. rewrite length_app; simpl. split; [lia|done].
  - unfold step_go; simpl.
    destruct (T !! i) as [[|c k|ch v k]|] eqn:Hi; simpl;
      try (by split).
    + destruct (Htasks i _ Hi) as [?|[[[p Hp]|[v Hv]] HC]]; try done.
      injection Hp as Hc Hk. subst c k.
      split; simpl.
      * intros j t Hj. destruct (decide (i = j)) as [<-|Hne].
        -- rewrite list_lookup_insert_eq in Hj by (by eapply lookup_lt_Some).
           injection Hj as <-. right. split; [right; by eexists|done].
        -- rewrite list_lookup_insert_ne in Hj by done. by apply Htasks.
      * by rewrite length_insert.
    + destruct (Htasks i _ Hi) as [?|[[[p Hp]|[w Hw]] HC]]; try done.
      injection Hw as Hch Hv Hk. subst ch w k. unfold chan in *. rewrite HC.
      assert (i < length T) as Hlt by (by eapply lookup_lt_Some).
      split; simpl.
      * intros j t Hj. destruct (decide (i = j)) as [<-|Hne].
        -- rewrite list_lookup_insert_eq in Hj by done.
           injection Hj as <-. by left.
        -- rewrite list_lookup_insert_ne in Hj by done.
           apply (waiter_of_weaken C); [|by apply Htasks].
           intros HCj. by rewrite list_lookup_insert_ne.
      * rewrite !length_insert.
        destruct Hmain as [[Hlen Hm]|(Hlen & Hnew & Hm)]; [by left|right].
        split; [done|]. split; [|done].
        rewrite list_lookup_insert_ne by lia. done.
  - unfold step_timer; simpl.
    destruct Hmain as [[Hlen Hm]|(Hlen & Hnew & Hm)].
    + inversion Hm as [a|c k Hk|c k Hk|k Hk| |ch kr kt Hkr Hkt]; subst; simpl;
        try (split; simpl; [done|by left]).
    + inversion Hm as [| | | |p ch k Hk|]; subst; simpl.
      split; simpl; [done|by right].
Qed.

Lemma disc_exec {A : Type} (env : environment) (s : list choice) (cfg : config A) :
  disc_config cfg → disc_config (exec env s cfg).
Proof.
  apply (exec_invariant env disc_config). intros c cfg'. apply disc_step.
Qed.

Lemma Close_twice_disc (iop : ioPipe) : disc None (Close_twice iop).
Proof.
  unfold Close_twice, Close, closeProc, closeProc_go, closeProc_signal,
    closeProc_select, closeProc_kill.
  repeat first
    [ progress simpl
    | progress intros
    | match goal with
      | |- context [match ?r with _ => _ end] => is_var r; destruct r
      end
    | constructor ].
Qed.

(** Under the discipline a goroutine is never held up: two steps of its
    own finish it, in whatever configuration. *)
Lemma disc_goroutine_finishes {A : Type} (env : environment) (cfg : config A) (i : nat) :
  disc_config cfg → i < length (tasks cfg) →
  tasks (exec env [RunGo i; RunGo i] cfg) !! i = Some TDone.
Proof.
  intros [Htasks _] Hlt. destruct cfg as [m T C S tr]; simpl in *.
  destruct (lookup_lt_is_Some_2 T i Hlt) as [t Hi].
  destruct (Htasks i t Hi) as [->|[[[p ->]|[v ->]] HC]].
  - unfold step_go; simpl. rewrite Hi. simpl. by rewrite Hi.
  - unfold step_go at 2; simpl. rewrite Hi. unfold waiter.
    unfold step_go; simpl. rewrite list_lookup_insert_eq by done.
    unfold chan in *. rewrite HC. simpl.
    rewrite list_lookup_insert_eq; [done|by rewrite length_insert].
  - unfold step_go at 2; simpl. rewrite Hi. unfold chan in *. rewrite HC.
    unfold step_go; simpl. rewrite list_lookup_insert_eq by done. simpl.
    by rewrite list_lookup_insert_eq.
Qed.

Lemma Close_twice_lives (env : environment) (iop : ioPipe) (s : list choice) :
  is_nil_process (proc iop) = false →
  run env s (init (Close_twice iop)) = Some (exec env s (init (Close_twice iop))).
Proof.
  intros Hp. apply run_exec.
  apply (sound_trace _ (sound_exec env s (init (Close_twice iop))
                          (mkSoundConfig _ (init (Close_twice iop))
                             (Close_twice_sound iop Hp) (Forall_nil_2 _) eq_refl))).
Qed.

(** C9.  Two successive calls of [Close] on a channel whose process handle
    is a started process (the first call could not have waited on it
    otherwise), under every environment, so whatever the second round of
    calls answers, and every schedule, the first call returned or not and
    its goroutine finished or not.  No step panics: the run lives, none of
    its calls goes through the nil pointer.  The calling thread waits for
    nobody: some continuation in which only it and the timer move makes
    both calls return, and that run lives too.  And no goroutine, of
    either call, is held up on its channel: two steps of its own finish
    it, in a run that lives. *)
Theorem Close_twice_neither_blocks_nor_panics (env : environment) (iop : ioPipe)
    (s : list choice) :
  is_nil_process (proc iop) = false →
  run env s (init (Close_twice iop)) = Some (exec env s (init (Close_twice iop)))
  ∧ (∃ s' cfg',
       Forall own_step s'
       ∧ run env (s ++ s') (init (Close_twice iop)) = Some cfg'
       ∧ returned cfg' ≠ None)
  ∧ ∀ i, i < length (tasks (exec env s (init (Close_twice iop)))) →
         ∃ cfg', run env (s ++ [RunGo i; RunGo i]) (init (Close_twice iop)) = Some cfg'
                 ∧ tasks cfg' !! i = Some TDone.
Proof.
  intros Hp. split; [by apply Close_twice_lives|]. split.
  - destruct (exec env s (init (Close_twice iop))) as [m T C S tr] eqn:Hcfg.
    destruct (main_can_finish env m T C S tr) as (s' & Hs' & Hret).
    exists s', (exec env (s ++ s') (init (Close_twice iop))).
    split; [done|]. split; [by apply Close_twice_lives|].
    rewrite exec_app, Hcfg. by apply is_ret_returned.
  - intros i Hi. exists (exec env (s ++ [RunGo i; RunGo i]) (init (Close_twice iop))).
    split; [by apply Close_twice_lives|].
    rewrite exec_app. apply disc_goroutine_finishes; [|done].
    apply disc_exec. split; simpl; [done|]. left. split; [done|].
    apply Close_twice_disc.
Qed.

Lemma Close_twice_neither_blocks_nor_panics_witness :
  run waits_once
    [RunMain; RunMain; RunMain; RunMain; RunMain; TimerFires; RunMain;
     RunMain; RunMain; RunMain; RunMain; RunMain; RunGo 0; RunGo 0]
    (init (Close_twice iop7))
  = Some (exec waits_once
            [RunMain; RunMain; RunMain; RunMain; RunMain; TimerFires; RunMain;
             RunMain; RunMain; RunMain; RunMain; RunMain; RunGo 0; RunGo 0]
            (init (Close_twice iop7)))
  ∧ (∃ s' cfg',
       Forall own_step s'
       ∧ run waits_once
           ([RunMain; RunMain; RunMain; RunMain; RunMain; TimerFires; RunMain;
             RunMain; RunMain; RunMain; RunMain; RunMain; RunGo 0; RunGo 0] ++ s')
           (init (Close_twice iop7))
         = Some cfg'
       ∧ returned cfg' ≠ None)
  ∧ ∀ i, i < length (tasks (exec waits_once
                              [RunMain; RunMain; RunMain; RunMain; RunMain; TimerFires;
                               RunMain; RunMain; RunMain; RunMain; RunMain; RunMain;
                               RunGo 0; RunGo 0]
                              (init (Close_twice iop7)))) →
         ∃ cfg', run waits_once
                   ([RunMain; RunMain; RunMain; RunMain; RunMain; TimerFires; RunMain;
                     RunMain; RunMain; RunMain; RunMain; RunMain; RunGo 0; RunGo 0]
                    ++ [RunGo i; RunGo i])
                   (init (Close_twice iop7))
                 = Some cfg'
                 ∧ tasks cfg' !! i = Some TDone.
Proof.
  apply (Close_twice_neither_blocks_nor_panics waits_once iop7
           [RunMain; RunMain; RunMain; RunMain; RunMain; TimerFires; RunMain;
            RunMain; RunMain; RunMain; RunMain; RunMain; RunGo 0; RunGo 0]).
  reflexivity.
Defined.

(** The second call of that run: its streams are closed again, the
    interrupt is sent again, and the second [Wait] fails; the select
    receives that error and the second [Close] returns it. *)
Example Close_twice_second_call :
  returned (exec waits_once
              [RunMain; RunMain; RunMain; RunMain; RunMain; TimerFires; RunMain;
               RunMain; RunMain; RunMain; RunMain; RunMain; RunGo 0; RunGo 0;
               RunGo 1; RunGo 1; RunMain]
              (init (Close_twice iop7)))
  = Some (Some errProcStopTimeout, Some (Foreign "wait: no child processes")).
Proof. done. Qed.

(** ** More on [closeProc]: order and number of its actions *)

Lemma cp_state_events (iop : ioPipe) (S : list Cmd) (tr0 : list event)
    (cfg : config error) :
  cp_state iop S tr0 cfg →
  ∃ evs, trace cfg = tr0 ++ evs
         ∧ cp_main_events (proc iop) (by_main evs)
         ∧ go_events (proc iop) (by_go evs).
Proof.
  intros Hst.
  destruct Hst as [| |T sent evs Hg Hm|T sent evs e Hg Hm|T sent evs Hg Hm
                   |T evs v Hg Hm|T sent evs Hg Hm|T sent evs k Hg Hm]; simpl.
  - exists []. rewrite app_nil_r. split; [done|]. split; [by left|by left].
  - exists [EvMakeChan 0]. split; [done|]. split; [right; by left|by left].
  - exists evs. split; [done|]. split; [|by eapply go_state_events].
    rewrite Hm. unfold cp_main_events. tauto.
  - exists evs. split; [done|]. split; [|by eapply go_state_events].
    rewrite Hm. unfold cp_main_events. eauto 10.
  - exists evs. split; [done|]. split; [|by eapply go_state_events].
    rewrite Hm. unfold cp_main_events. eauto 10.
  - exists evs. split; [done|]. split; [|by eapply go_state_events].
    rewrite Hm. unfold cp_main_events. eauto 10.
  - exists evs. split; [done|]. split; [|by eapply go_state_events].
    rewrite Hm. unfold cp_main_events. tauto.
  - exists evs. split; [done|]. split; [|by eapply go_state_events].
    rewrite Hm. unfold cp_main_events. eauto 10.
Qed.

Lemma by_go_app (l1 l2 : list event) : by_go (l1 ++ l2) = by_go l1 ++ by_go l2.
Proof. apply List.filter_app. Qed.

Lemma by_main_app (l1 l2 : list event) : by_main (l1 ++ l2) = by_main l1 ++ by_main l2.
Proof. apply List.filter_app. Qed.

Lemma count_app (f : event → bool) (l1 l2 : list event) :
  count f (l1 ++ l2) = count f l1 + count f l2.
Proof. unfold count. by rewrite List.filter_app, length_app. Qed.

Lemma go_events_count_kill (p : osProcess) (gevs : list event) :
  go_events p gevs → count is_kill gevs = 0.
Proof. by intros [->|(w & [->| ->])]. Qed.

(** X1.  In every run of [closeProc], complete or not, a [Kill] is only
    ever made by the calling thread, on the channel's own process handle,
    after [Signal] has succeeded and after the select has taken its timeout
    case; and it is made at most once. *)
Theorem closeProc_kill_is_last_resort (env : environment) (iop : ioPipe)
    (s : list choice) (t : thread) (q : osProcess) (k : error) :
  In (EvCall t (Kill q) k) (trace (exec env s (init (closeProc iop)))) →
  t = Main ∧ q = proc iop
  ∧ ∃ tr1 tr2,
      trace (exec env s (init (closeProc iop)))
      = tr1 ++ EvCall Main (Kill (proc iop)) k :: tr2
      ∧ In (EvCall Main (Signal (proc iop)) None) tr1
      ∧ In EvTimeout tr1
      ∧ count is_kill tr1 = 0 ∧ count is_kill tr2 = 0.
Proof.
  intros Hin.
  destruct (cp_state_events iop [] [] _ (cp_state_exec env iop [] [] s))
    as (evs & Htr & Hm & Hg).
  unfold init in *. simpl in Htr. rewrite Htr in *. clear Htr.
  apply In_by_thread in Hin. destruct Hin as [Hin|Hin];
    [|by apply (go_events_no_kill (proc iop)) in Hin].
  destruct Hm as [Hm|[Hm|[Hm|[[r Hm]|[[v Hm]|[Hm|[k' Hm]]]]]]];
    rewrite Hm in Hin; simpl in Hin; try (exfalso; intuition discriminate).
  assert (EvCall Main (Kill (proc iop)) k' = EvCall t (Kill q) k) as Heq
    by (intuition discriminate).
  injection Heq as <- <- <-. split; [done|]. split; [done|].
  unfold by_main in Hm.
  apply (filter_split _ _
           [EvMakeChan 0; EvGo 0; EvCall Main (Signal (proc iop)) None; EvTimeout] [])
    in Hm as (tr1 & tr2 & -> & H1 & H2).
  exists tr1, tr2. split; [done|].
  assert (∀ ev, In ev [EvMakeChan 0; EvGo 0; EvCall Main (Signal (proc iop)) None;
                       EvTimeout] → In ev tr1) as Hsub.
  { intros ev Hev. rewrite <- H1 in Hev. by apply List.filter_In in Hev as [? _]. }
  split; [apply Hsub; simpl; tauto|]. split; [apply Hsub; simpl; tauto|].
  rewrite by_go_app in Hg. simpl in Hg.
  apply go_events_count_kill in Hg. rewrite count_app in Hg.
  rewrite (count_by_thread _ tr1), (count_by_thread _ tr2).
  fold (by_main tr1) in H1. fold (by_main tr2) in H2. rewrite H1, H2.
  unfold count at 1 3. simpl. lia.
Qed.

Lemma closeProc_kill_is_last_resort_witness :
  Main = Main ∧ Pid 7 = proc iop7
  ∧ ∃ tr1 tr2,
      trace (exec (env_of kill_fails)
               [RunMain; RunMain; RunGo 0; RunMain; TimerFires; RunMain; RunGo 0]
               (init (closeProc iop7)))
      = tr1 ++ EvCall Main (Kill (proc iop7))
                 (Some (Foreign "os: process already finished")) :: tr2
      ∧ In (EvCall Main (Signal (proc iop7)) None) tr1
      ∧ In EvTimeout tr1
      ∧ count is_kill tr1 = 0 ∧ count is_kill tr2 = 0.
Proof.
  apply (closeProc_kill_is_last_resort (env_of kill_fails) iop7
           [RunMain; RunMain; RunGo 0; RunMain; TimerFires; RunMain; RunGo 0]
           Main (Pid 7) (Some (Foreign "os: process already finished"))).
  simpl. tauto.
Defined.

(** X2.  In every run of [closeProc], complete or not: the interrupt is
    sent at most once; the select is decided at most once, and only after
    the interrupt was sent, so a run never both receives the result of
    the wait and takes the timeout; and [Kill] is called at most as often
    as the timeout is taken. *)
Theorem closeProc_acts_once (env : environment) (iop : ioPipe) (s : list choice) :
  count is_signal (trace (exec env s (init (closeProc iop)))) ≤ 1
  ∧ count is_recv (trace (exec env s (init (closeProc iop))))
    + count is_timeout (trace (exec env s (init (closeProc iop))))
    ≤ count is_signal (trace (exec env s (init (closeProc iop))))
  ∧ count is_kill (trace (exec env s (init (closeProc iop))))
    ≤ count is_timeout (trace (exec env s (init (closeProc iop)))).
Proof.
  destruct (cp_state_events iop [] [] _ (cp_state_exec env iop [] [] s))
    as (evs & Htr & Hm & Hg).
  unfold init in *. simpl in Htr. rewrite Htr. clear Htr.
  rewrite !(count_by_thread _ evs).
  destruct Hm as [Hm|[Hm|[Hm|[[r Hm]|[[v Hm]|[Hm|[k' Hm]]]]]]]; rewrite Hm;
    destruct Hg as [Hg|(w & [Hg|Hg])]; rewrite Hg; unfold count; simpl; lia.
Qed.

(** ** More on [ioPipe.Close] *)

(** Every run of [Close], complete or not: nothing yet, or the read
    side's close, or both closes followed by a run of [closeProc]. *)
Lemma Close_partial_runs (env : environment) (iop : ioPipe) (s : list choice) :
  trace (exec env s (init (Close iop))) = []
  ∨ trace (exec env s (init (Close iop))) = [close_read_ev env iop]
  ∨ ∃ cfg,
      cp_state iop [] [close_read_ev env iop; close_write_ev env iop] cfg
      ∧ trace (exec env s (init (Close iop))) = trace cfg.
Proof.
  unfold init, Close.
  only_main s1; [by left|].
  only_main s2; [right; by left|].
  fold (close_read_err env iop). fold (close_read_ev env iop).
  fold (close_write_err env iop). fold (close_write_ev env iop).
  pose proof (exec_bind_pure env
                (overwrite (overwrite (close_read_err env iop) (close_write_err env iop)))
                s2 (closeProc_in_Close env iop)) as Hexec.
  unfold with_main in Hexec at 1. simpl in Hexec. rewrite Hexec. simpl.
  right. right. eexists. split; [|done]. apply cp_state_exec.
Qed.

(** X3.  [Close] returns nil only on a run where both streams closed
    without error, the interrupt was delivered, [Wait] answered nil and
    that answer was received by the select before any timeout: no timeout
    was taken and [Kill] was never called. *)
Theorem Close_nil_only_when_clean (env : environment) (iop : ioPipe) (s : list choice) :
  returned (exec env s (init (Close iop))) = Some None →
  close_read_err env iop = None
  ∧ close_write_err env iop = None
  ∧ In (EvCall Main (Signal (proc iop)) None) (trace (exec env s (init (Close iop))))
  ∧ In (EvCall (Goroutine 0) (Wait (proc iop)) None)
       (trace (exec env s (init (Close iop))))
  ∧ In (EvRecv 0 None) (trace (exec env s (init (Close iop))))
  ∧ count is_timeout (trace (exec env s (init (Close iop)))) = 0
  ∧ count is_kill (trace (exec env s (init (Close iop)))) = 0.
Proof.
  intros Hres.
  destruct (Close_runs env iop s None Hres) as (s' & procErr & Hret & Htr & Heq).
  assert (procErr = None ∧ close_write_err env iop = None
          ∧ close_read_err env iop = None) as (-> & Hw & Hr).
  { unfold overwrite in Heq.
    destruct procErr, (close_write_err env iop), (close_read_err env iop); done. }
  destruct (closeProc_returned env iop [] [close_read_ev env iop; close_write_ev env iop]
              s' None Hret) as (evs & Htr' & Hout & _).
  unfold closeProc_in_Close in Htr. rewrite Htr, Htr'. clear Htr Htr'.
  destruct Hout as [(e & ? & _)|[(Hm & Hg)|(k & Hk & _)]];
    [done| |by destruct k].
  split; [done|]. split; [done|].
  assert (∀ ev, In ev (by_main evs) ∨ In ev (by_go evs) →
                In ev ([close_read_ev env iop; close_write_ev env iop] ++ evs)) as Hin.
  { intros ev Hev. apply in_or_app. right. by apply In_by_thread. }
  split; [apply Hin; left; rewrite Hm; simpl; tauto|].
  split; [apply Hin; right; rewrite Hg; simpl; tauto|].
  split; [apply Hin; left; rewrite Hm; simpl; tauto|].
  rewrite !count_app, !(count_by_thread _ evs), Hm, Hg. done.
Qed.

Lemma Close_nil_only_when_clean_witness :
  close_read_err (env_of all_succeed) iop7 = None
  ∧ close_write_err (env_of all_succeed) iop7 = None
  ∧ In (EvCall Main (Signal (proc iop7)) None)
       (trace (exec (env_of all_succeed)
                 [RunMain; RunMain; RunMain; RunMain; RunGo 0; RunMain; RunGo 0; RunMain]
                 (init (Close iop7))))
  ∧ In (EvCall (Goroutine 0) (Wait (proc iop7)) None)
       (trace (exec (env_of all_succeed)
                 [RunMain; RunMain; RunMain; RunMain; RunGo 0; RunMain; RunGo 0; RunMain]
                 (init (Close iop7))))
  ∧ In (EvRecv 0 None)
       (trace (exec (env_of all_succeed)
                 [RunMain; RunMain; RunMain; RunMain; RunGo 0; RunMain; RunGo 0; RunMain]
                 (init (Close iop7))))
  ∧ count is_timeout
      (trace (exec (env_of all_succeed)
                [RunMain; RunMain; RunMain; RunMain; RunGo 0; RunMain; RunGo 0; RunMain]
                (init (Close iop7)))) = 0
  ∧ count is_kill
      (trace (exec (env_of all_succeed)
                [RunMain; RunMain; RunMain; RunMain; RunGo 0; RunMain; RunGo 0; RunMain]
                (init (Close iop7)))) = 0.
Proof.
  exact (Close_nil_only_when_clean (env_of all_succeed) iop7
           [RunMain; RunMain; RunMain; RunMain; RunGo 0; RunMain; RunGo 0; RunMain]
           eq_refl).
Defined.

(** X4.  In every run of [Close], complete or not, the trace is empty, or
    holds the read side's close alone, or starts with the read side's
    close and the write side's close and goes on with events of the
    shutdown protocol only: no call on the process is made before both
    streams have been closed, and the write side is closed whatever the
    read side answered. *)
Theorem Close_streams_before_process (env : environment) (iop : ioPipe)
    (s : list choice) :
  trace (exec env s (init (Close iop))) = []
  ∨ trace (exec env s (init (Close iop)))
    = [EvCall Main (ReadCloser_Close (iopReadCloser iop)) (close_read_err env iop)]
  ∨ ∃ evs,
      trace (exec env s (init (Close iop)))
      = EvCall Main (ReadCloser_Close (iopReadCloser iop)) (close_read_err env iop)
        :: EvCall Main (WriteCloser_Close (iopWriteCloser iop)) (close_write_err env iop)
        :: evs
      ∧ cp_main_events (proc iop) (by_main evs)
      ∧ go_events (proc iop) (by_go evs).
Proof.
  destruct (Close_partial_runs env iop s) as [H|[H|(cfg & Hst & H)]].
  - by left.
  - right. by left.
  - right. right.
    destruct (cp_state_events _ _ _ _ Hst) as (evs & Htr & Hm & Hg).
    exists evs. rewrite H, Htr. done.
Qed.

(** X5.  In every run of [Close], complete or not, every call made, by
    the calling thread or by the goroutine, is a close of the channel's
    own reader or writer, or a [Signal], [Wait] or [Kill] on the channel's
    own process handle: [Close] touches no other stream, no other process
    and no command. *)
Theorem Close_stays_within_channel (env : environment) (iop : ioPipe)
    (s : list choice) :
  Forall (within iop) (trace (exec env s (init (Close iop)))).
Proof.
  destruct (Close_partial_runs env iop s) as [H|[H|(cfg & Hst & H)]]; rewrite H.
  - constructor.
  - by repeat constructor.
  - destruct (cp_state_events _ _ _ _ Hst) as (evs & Htr & Hm & Hg).
    rewrite Htr. apply Forall_app. split; [by repeat constructor|].
    apply Forall_forall. intros ev Hev. apply list_elem_of_In, In_by_thread in Hev.
    destruct Hev as [Hev|Hev].
    + destruct Hm as [Hm|[Hm|[Hm|[[r Hm]|[[v Hm]|[Hm|[k' Hm]]]]]]];
        rewrite Hm in Hev; simpl in Hev;
        repeat (destruct Hev as [<-|Hev]; [done|]); done.
    + destruct Hg as [Hg|(w & [Hg|Hg])]; rewrite Hg in Hev; simpl in Hev;
        repeat (destruct Hev as [<-|Hev]; [done|]); done.
Qed.

(** ** More on closing twice: which wait a select hears of *)

Lemma snoc_split {A : Type} (l l1 l2 : list A) (x y : A) :
  l ++ [y] = l1 ++ x :: l2 →
  (l2 = [] ∧ l1 = l ∧ x = y) ∨ ∃ l2', l2 = l2' ++ [y] ∧ l = l1 ++ x :: l2'.
Proof.
  destruct l2 as [|z l2' _] using rev_ind; intros H.
  - left. apply app_inj_tail in H as [-> ->]. done.
  - right. exists l2'.
    change (l ++ [y] = l1 ++ (x :: l2') ++ [z]) in H.
    rewrite (assoc_L (++)) in H. apply app_inj_tail in H as [-> ->]. done.
Qed.

Lemma sends_own_wait_snoc (p0 : osProcess) (tr : list event) (ev : event) :
  sends_own_wait p0 tr →
  (∀ i ch v, ev = EvSend i ch v →
             ch = i ∧ In (EvCall (Goroutine i) (Wait p0) v) tr) →
  sends_own_wait p0 (tr ++ [ev]).
Proof.
  intros Htr Hev i ch v Hin. apply in_app_or in Hin as [Hin|[Heq|[]]].
  - destruct (Htr i ch v Hin) as [Hch Hw]. split; [done|]. apply in_or_app. by left.
  - destruct (Hev i ch v Heq) as [Hch Hw]. split; [done|]. apply in_or_app. by left.
Qed.

Lemma receives_latest_snoc (p0 : osProcess) (tr : list event) (ev : event) :
  receives_latest p0 tr →
  (∀ ch v, ev = EvRecv ch v →
           count is_makechan tr = S ch
           ∧ In (EvSend ch ch v) tr
           ∧ In (EvCall (Goroutine ch) (Wait p0) v) tr) →
  receives_latest p0 (tr ++ [ev]).
Proof.
  intros Htr Hev tr1 ch v tr2 Heq.
  apply snoc_split in Heq as [(-> & -> & Hx)|(tr2' & -> & ->)].
  - by apply Hev.
  - by apply (Htr tr1 ch v tr2').
Qed.

Lemma flow_tasks_mono (p0 : osProcess) (T : list task) (tr : list event) (ev : event) :
  (∀ i t, T !! i = Some t →
     t = TDone ∨ t = waiter p0 i
     ∨ ∃ v, t = TSend i v TDone ∧ In (EvCall (Goroutine i) (Wait p0) v) tr) →
  ∀ i t, T !! i = Some t →
    t = TDone ∨ t = waiter p0 i
    ∨ ∃ v, t = TSend i v TDone ∧ In (EvCall (Goroutine i) (Wait p0) v) (tr ++ [ev]).
Proof.
  intros H i t Hi. destruct (H i t Hi) as [?|[?|(v & ? & Hin)]]; [by left|by right; left|].
  right. right. exists v. split; [done|]. apply in_or_app. by left.
Qed.

Lemma flow_chans_mono (C : list (option error)) (tr : list event) (ev : event) :
  (∀ ch v, C !! ch = Some (Some v) → In (EvSend ch ch v) tr) →
  ∀ ch v, C !! ch = Some (Some v) → In (EvSend ch ch v) (tr ++ [ev]).
Proof. intros H ch v Hch. apply in_or_app. left. by apply H. Qed.

Lemma flow_step {A : Type} (env : environment) (p0 : osProcess) (c : choice)
    (cfg : config A) :
  flow_config p0 cfg → flow_config p0 (step env c cfg).
Proof.
  intros [Hdisc (cur & Hsel & Hcur) Hmade Htasks Hchans Hsends Hrecvs].
  pose proof (disc_step env c cfg Hdisc) as Hdisc'.
  destruct cfg as [m T C S tr]; simpl in *.
  destruct c as [|i|]; simpl in *.
  - unfold step_main in *; simpl in *.
    inversion Hsel as [cur' a|cur' c k Hk|cur' c k Hk|cur' k Hk|ch k Hk|ch kr kt Hkr Hkt];
      subst; simpl in *.
    + split; simpl; eauto.
    + split; simpl; eauto using flow_tasks_mono, flow_chans_mono.
      * by rewrite count_snoc, Nat.add_0_r.
      * by apply sends_own_wait_snoc.
      * by apply receives_latest_snoc.
    + split; simpl; eauto using flow_tasks_mono, flow_chans_mono.
      * by rewrite count_snoc, Nat.add_0_r.
      * by apply sends_own_wait_snoc.
      * by apply receives_latest_snoc.
    + split; simpl; eauto using flow_tasks_mono.
      * exists (Some (length C)). split; [done|]. intros ch [= <-].
        rewrite length_app. simpl. lia.
      * rewrite count_snoc, length_app. simpl. lia.
      * intros ch v Hch. apply in_or_app. left. apply Hchans.
        apply lookup_app_Some in Hch as [Hch|[_ Hch]]; [done|].
        destruct (ch - length C) as [|n]; simpl in Hch; done.
      * by apply sends_own_wait_snoc.
      * by apply receives_latest_snoc.
    + assert (ch = length T) as ->.
      { specialize (Hcur ch eq_refl). destruct Hdisc as [_ Hmain]; simpl in Hmain.
        destruct Hmain as [[_ Hd]|(Hlen & _)]; [inversion Hd|lia]. }
      split; simpl; eauto using flow_chans_mono.
      * by rewrite count_snoc, Nat.add_0_r.
      * intros i t Hi. apply lookup_app_Some in Hi as [Hi|[Hge Hi]].
        -- by eapply flow_tasks_mono.
        -- destruct (i - length T) as [|n] eqn:Hn; simpl in Hi; [|done].
           injection Hi as <-. assert (i = length T) as -> by lia. right. by left.
      * by apply sends_own_wait_snoc.
      * by apply receives_latest_snoc.
    + destruct (C !! ch) as [[v|]|] eqn:Hch; simpl in *;
        try (split; simpl; eauto; fail).
      assert (ch < length C) as Hlt by (by eapply lookup_lt_Some).
      split; simpl; eauto using flow_tasks_mono.
      * exists (Some ch). split; [done|]. intros ch' [= <-].
        rewrite length_insert. by apply Hcur.
      * by rewrite count_snoc, Nat.add_0_r, length_insert.
      * intros ch' v' Hch'. apply in_or_app. left. apply Hchans.
        destruct (decide (ch = ch')) as [<-|Hne].
        -- by rewrite list_lookup_insert_eq in Hch'.
        -- by rewrite list_lookup_insert_ne in Hch'.
      * by apply sends_own_wait_snoc.
      * apply receives_latest_snoc; [done|]. intros ch' v' [= <- <-].
        split; [rewrite Hmade; symmetry; by apply Hcur|].
        split; [by apply Hchans|]. by apply (Hsends ch ch v), Hchans.
  - unfold step_go in *; simpl in *.
    destruct (T !! i) as [[|c k|ch v k]|] eqn:Hi; simpl in *;
      try (split; simpl; eauto; fail).
    + destruct (Htasks i _ Hi) as [?|[Hw|(v & ? & _)]]; try done.
      injection Hw as -> ->. simpl in *.
      assert (i < length T) as Hlt by (by eapply lookup_lt_Some).
      split; simpl; eauto using flow_chans_mono.
      * by rewrite count_snoc, Nat.add_0_r.
      * intros j t Hj. destruct (decide (i = j)) as [<-|Hne].
        -- rewrite list_lookup_insert_eq in Hj by done. injection Hj as <-.
           right. right. eexists. split; [done|]. apply in_or_app. right. by left.
        -- rewrite list_lookup_insert_ne in Hj by done. by eapply flow_tasks_mono.
      * by apply sends_own_wait_snoc.
      * by apply receives_latest_snoc.
    + destruct (Htasks i _ Hi) as [?|[?|(w & Hw & Hwait)]]; try done.
      injection Hw as Hch Hv Hk. subst ch w k. unfold chan in *.
      destruct (C !! i) as [[w|]|] eqn:HC; simpl in *;
        try (split; simpl; eauto; fail).
      assert (i < length T) as Hlt by (by eapply lookup_lt_Some).
      assert (i < length C) as HltC by (by eapply lookup_lt_Some).
      split; simpl; eauto.
      * exists cur. split; [done|]. intros ch' Hc. rewrite length_insert. by apply Hcur.
      * by rewrite count_snoc, Nat.add_0_r, length_insert.
      * intros j t Hj. destruct (decide (i = j)) as [<-|Hne].
        -- rewrite list_lookup_insert_eq in Hj by done. injection Hj as <-. by left.
        -- rewrite list_lookup_insert_ne in Hj by done. by eapply flow_tasks_mono.
      * intros ch' v' Hch'. apply in_or_app.
        destruct (decide (i = ch')) as [<-|Hne].
        -- rewrite list_lookup_insert_eq in Hch' by done. injection Hch' as <-.
           right. by left.
        -- rewrite list_lookup_insert_ne in Hch' by done. left. by apply Hchans.
      * apply sends_own_wait_snoc; [done|]. by intros i' ch' v' [= <- <- <-].
      * by apply receives_latest_snoc.
  - unfold step_timer in *; simpl in *.
    inversion Hsel as [cur' a|cur' c k Hk|cur' c k Hk|cur' k Hk|ch k Hk|ch kr kt Hkr Hkt];
      subst; simpl in *; try (split; simpl; eauto; fail).
    split; simpl; eauto using flow_tasks_mono, flow_chans_mono.
    + by rewrite count_snoc, Nat.add_0_r.
    + by apply sends_own_wait_snoc.
    + by apply receives_latest_snoc.
Qed.

Lemma Close_twice_sel (iop : ioPipe) : sel (proc iop) None (Close_twice iop).
Proof.
  unfold Close_twice, Close, closeProc, closeProc_go, closeProc_signal,
    closeProc_select, closeProc_kill.
  repeat first
    [ progress simpl
    | progress intros
    | match goal with
      | |- context [match ?r with _ => _ end] => is_var r; destruct r
      end
    | constructor ].
Qed.

Lemma Close_twice_flow (env : environment) (iop : ioPipe) (s : list choice) :
  flow_config (proc iop) (exec env s (init (Close_twice iop))).
Proof.
  apply (exec_invariant env (flow_config (proc iop))).
  - intros c cfg. apply flow_step.
  - split; simpl; try done.
    + split; simpl; [done|]. left. split; [done|]. apply Close_twice_disc.
    + exists None. split; [apply Close_twice_sel|done].
    + intros tr1 ch v tr2 H. by destruct tr1.
Qed.

(** X7.  In every run of two successive calls of [Close] on one channel,
    complete or not: whenever a select receives a value [v] on a channel,
    that channel is the one made last (by the call whose select it is),
    and [v] is what the goroutine started for that channel got from its
    own [Wait] on the process and sent on that channel, before the
    receive.  So the second call never takes a wait result left over by
    the first one. *)
Theorem Close_twice_hears_own_wait (env : environment) (iop : ioPipe)
    (s : list choice) (tr1 tr2 : list event) (ch : chan) (v : error) :
  trace (exec env s (init (Close_twice iop))) = tr1 ++ EvRecv ch v :: tr2 →
  count is_makechan tr1 = S ch
  ∧ In (EvSend ch ch v) tr1
  ∧ In (EvCall (Goroutine ch) (Wait (proc iop)) v) tr1.
Proof.
  intros Htr. by apply (flow_recvs _ _ (Close_twice_flow env iop s) tr1 ch v tr2).
Qed.

Lemma Close_twice_hears_own_wait_witness :
  count is_makechan
    [EvCall Main (ReadCloser_Close 2) None; EvCall Main (WriteCloser_Close 1) None;
     EvMakeChan 0; EvGo 0; EvCall Main (Signal (Pid 7)) None; EvTimeout;
     EvCall Main (Kill (Pid 7)) None;
     EvCall Main (ReadCloser_Close 2) None; EvCall Main (WriteCloser_Close 1) None;
     EvMakeChan 1; EvGo 1; EvCall Main (Signal (Pid 7)) None;
     EvCall (Goroutine 0) (Wait (Pid 7)) (Some (Foreign "exit status 1"));
     EvSend 0 0 (Some (Foreign "exit status 1"));
     EvCall (Goroutine 1) (Wait (Pid 7)) (Some (Foreign "wait: no child processes"));
     EvSend 1 1 (Some (Foreign "wait: no child processes"))]
  = 2
  ∧ In (EvSend 1 1 (Some (Foreign "wait: no child processes")))
       [EvCall Main (ReadCloser_Close 2) None; EvCall Main (WriteCloser_Close 1) None;
        EvMakeChan 0; EvGo 0; EvCall Main (Signal (Pid 7)) None; EvTimeout;
        EvCall Main (Kill (Pid 7)) None;
        EvCall Main (ReadCloser_Close 2) None; EvCall Main (WriteCloser_Close 1) None;
        EvMakeChan 1; EvGo 1; EvCall Main (Signal (Pid 7)) None;
        EvCall (Goroutine 0) (Wait (Pid 7)) (Some (Foreign "exit status 1"));
        EvSend 0 0 (Some (Foreign "exit status 1"));
        EvCall (Goroutine 1) (Wait (Pid 7)) (Some (Foreign "wait: no child processes"));
        EvSend 1 1 (Some (Foreign "wait: no child processes"))]
  ∧ In (EvCall (Goroutine 1) (Wait (proc iop7)) (Some (Foreign "wait: no child processes")))
       [EvCall Main (ReadCloser_Close 2) None; EvCall Main (WriteCloser_Close 1) None;
        EvMakeChan 0; EvGo 0; EvCall Main (Signal (Pid 7)) None; EvTimeout;
        EvCall Main (Kill (Pid 7)) None;
        EvCall Main (ReadCloser_Close 2) None; EvCall Main (WriteCloser_Close 1) None;
        EvMakeChan 1; EvGo 1; EvCall Main (Signal (Pid 7)) None;
        EvCall (Goroutine 0) (Wait (Pid 7)) (Some (Foreign "exit status 1"));
        EvSend 0 0 (Some (Foreign "exit status 1"));
        EvCall (Goroutine 1) (Wait (Pid 7)) (Some (Foreign "wait: no child processes"));
        EvSend 1 1 (Some (Foreign "wait: no child processes"))].
Proof.
  exact (Close_twice_hears_own_wait waits_once iop7
           [RunMain; RunMain; RunMain; RunMain; RunMain; TimerFires; RunMain;
            RunMain; RunMain; RunMain; RunMain; RunMain;
            RunGo 0; RunGo 0; RunGo 1; RunGo 1; RunMain]
           _ [] 1 (Some (Foreign "wait: no child processes")) eq_refl).
Defined.

(** ** More on [closeProc]: the wait is under way before the interrupt *)

Lemma go_events_count_signal (p : osProcess) (gevs : list event) :
  go_events p gevs → count is_signal gevs = 0.
Proof. by intros [->|(w & [->| ->])]. Qed.

(** Once the goroutine of [closeProc] has been started, one step of its
    own, if it has not taken it yet, is the call of [Wait] on the process:
    after that step the trace holds that call, once. *)
Lemma cp_state_wait_under_way (env : environment) (iop : ioPipe) (cfg : config error) :
  cp_state iop [] [] cfg →
  In (EvGo 0) (trace cfg) →
  (∃ w, In (EvCall (Goroutine 0) (Wait (proc iop)) w) (trace (exec env [RunGo 0] cfg)))
  ∧ count is_wait (trace (exec env [RunGo 0] cfg)) = 1.
Proof.
  intros Hst Hin.
  destruct Hst as [| |T sent evs Hg Hm|T sent evs e' Hg Hm|T sent evs Hg Hm
                   |T evs v Hg Hm|T sent evs Hg Hm|T sent evs k Hg Hm];
    simpl in Hin; try (exfalso; intuition discriminate); clear Hin;
    simpl; unfold step_go; simpl;
    inversion Hg as [Ht Hs Hgo|w Ht Hs Hgo|w Ht Hs Hgo]; subst; simpl;
    (split;
     [ eexists; rewrite ?in_app_iff, (In_by_thread _ evs), <- Hgo; simpl; eauto 10
     | rewrite ?count_snoc, (count_by_thread _ evs), Hm, <- Hgo; done ]).
Qed.

(** X8.  In every run of [closeProc], complete or not, a [Signal] is only
    ever made by the calling thread, on the channel's own process handle,
    after the result channel was made and after goroutine 0 was started,
    and no other [Signal] precedes it.  That goroutine is the one that
    calls [Wait] on the process: whenever a [Signal] has been made, one
    step of goroutine 0, if it has not taken it already, is that call, so
    that the trace then holds a [Wait] of goroutine 0 on the process, and
    no other.  The wait is set up before the process is asked to stop,
    whether or not the interrupt can then be delivered. *)
Theorem closeProc_waits_before_signalling (env : environment) (iop : ioPipe)
    (s : list choice) (t : thread) (q : osProcess) (r : error) :
  In (EvCall t (Signal q) r) (trace (exec env s (init (closeProc iop)))) →
  t = Main ∧ q = proc iop
  ∧ (∃ tr1 tr2,
       trace (exec env s (init (closeProc iop)))
       = tr1 ++ EvCall Main (Signal (proc iop)) r :: tr2
       ∧ In (EvMakeChan 0) tr1
       ∧ In (EvGo 0) tr1
       ∧ count is_signal tr1 = 0)
  ∧ (∃ w, In (EvCall (Goroutine 0) (Wait (proc iop)) w)
            (trace (exec env [RunGo 0] (exec env s (init (closeProc iop))))))
  ∧ count is_wait (trace (exec env [RunGo 0] (exec env s (init (closeProc iop))))) = 1.
Proof.
  intros Hin.
  pose proof (cp_state_exec env iop [] [] s) as Hst.
  fold (init (closeProc iop)) in Hst.
  destruct (cp_state_events iop [] [] _ Hst) as (evs & Htr & Hm & Hg).
  simpl in Htr.
  assert (t = Main ∧ q = proc iop
          ∧ ∃ tr1 tr2,
              evs = tr1 ++ EvCall Main (Signal (proc iop)) r :: tr2
              ∧ In (EvMakeChan 0) tr1 ∧ In (EvGo 0) tr1
              ∧ count is_signal tr1 = 0) as (-> & -> & tr1 & tr2 & Hevs & H1 & H2 & H3).
  { rewrite Htr in Hin. clear Htr Hst.
    apply In_by_thread in Hin. destruct Hin as [Hin|Hin].
    2: { destruct Hg as [Hg|(w & [Hg|Hg])]; rewrite Hg in Hin; simpl in Hin;
           exfalso; intuition discriminate. }
    assert (∃ rest, by_main evs
                    = [EvMakeChan 0; EvGo 0] ++ EvCall Main (Signal (proc iop)) r :: rest
                    ∧ t = Main ∧ q = proc iop) as (rest & Hm' & -> & ->).
    { destruct Hm as [Hm|[Hm|[Hm|[[r' Hm]|[[v Hm]|[Hm|[k' Hm]]]]]]];
        rewrite Hm in Hin; simpl in Hin;
        repeat (destruct Hin as [Hin|Hin]; try discriminate);
        try done; injection Hin as <- <- <-; rewrite Hm; eexists; split; done. }
    split; [done|]. split; [done|].
    unfold by_main in Hm'.
    apply filter_split in Hm' as (tr1 & tr2 & -> & H1 & H2).
    exists tr1, tr2. split; [done|].
    assert (∀ ev, In ev [EvMakeChan 0; EvGo 0] → In ev tr1) as Hsub.
    { intros ev Hev. rewrite <- H1 in Hev. by apply List.filter_In in Hev as [? _]. }
    split; [apply Hsub; simpl; tauto|]. split; [apply Hsub; simpl; tauto|].
    rewrite by_go_app in Hg. simpl in Hg.
    apply go_events_count_signal in Hg. rewrite count_app in Hg.
    rewrite (count_by_thread _ tr1). fold (by_main tr1) in H1. rewrite H1.
    unfold count at 1. simpl. lia. }
  split; [done|]. split; [done|]. split.
  - exists tr1, tr2. by rewrite Htr, Hevs.
  - apply (cp_state_wait_under_way env iop); [done|].
    rewrite Htr, Hevs. apply in_or_app. by left.
Qed.

Lemma closeProc_waits_before_signalling_witness :
  Main = Main ∧ Pid 7 = proc iop7
  ∧ (∃ tr1 tr2,
       trace (exec (env_of signal_fails) [RunMain; RunMain; RunMain]
                (init (closeProc iop7)))
       = tr1 ++ EvCall Main (Signal (proc iop7))
                  (Some (Foreign "os: process already finished")) :: tr2
       ∧ In (EvMakeChan 0) tr1
       ∧ In (EvGo 0) tr1
       ∧ count is_signal tr1 = 0)
  ∧ (∃ w, In (EvCall (Goroutine 0) (Wait (proc iop7)) w)
            (trace (exec (env_of signal_fails) [RunGo 0]
                      (exec (env_of signal_fails) [RunMain; RunMain; RunMain]
                         (init (closeProc iop7))))))
  ∧ count is_wait
      (trace (exec (env_of signal_fails) [RunGo 0]
                (exec (env_of signal_fails) [RunMain; RunMain; RunMain]
                   (init (closeProc iop7)))))
    = 1.
Proof.
  apply (closeProc_waits_before_signalling (env_of signal_fails) iop7
           [RunMain; RunMain; RunMain]
           Main (Pid 7) (Some (Foreign "os: process already finished"))).
  simpl. tauto.
Defined.

(** ** A channel that holds the nil handle cannot be closed *)

(** A program that has returned a value outside [ok] has made a call on a
    process. *)
Lemma quiet_step {A : Type} (env : environment) (ok : A → Prop) (c : choice)
    (cfg : config A) :
  existsb process_call (trace cfg) = true ∨ quiet ok (main cfg) →
  existsb process_call (trace (step env c cfg)) = true
  ∨ quiet ok (main (step env c cfg)).
Proof.
  intros [Htr|Hq].
  - left. destruct (step_trace env c cfg) as [evs ->].
    by rewrite existsb_app, Htr.
  - destruct cfg as [m T C S tr]; simpl in *. destruct c as [|i|]; simpl.
    + unfold step_main; simpl.
      inversion Hq as [a Ha|c k Hc|c k Hk|c k Hk|path args k Hk|c w k Hk|c k Hk|k Hk
                       |t k Hk|ch kr kt Hkr Hkt]; subst; simpl; try (by right).
      * left. rewrite existsb_app. simpl. by rewrite Hc, orb_true_r.
      * destruct (C !! ch) as [[v|]|]; simpl; by right.
    + right. unfold step_go; simpl.
      destruct (T !! i) as [[|c k|ch v k]|]; simpl; try done.
      destruct (C !! ch) as [[w|]|]; done.
    + right. unfold step_timer; simpl.
      inversion Hq; subst; simpl; done.
Qed.

Lemma quiet_exec {A : Type} (env : environment) (ok : A → Prop) (p : prog A)
    (s : list choice) (a : A) :
  quiet ok p →
  returned (exec env s (init p)) = Some a →
  ok a ∨ existsb process_call (trace (exec env s (init p))) = true.
Proof.
  intros Hq Hret.
  destruct (exec_invariant env
              (λ cfg, existsb process_call (trace cfg) = true ∨ quiet ok (main cfg))
              (λ c cfg, quiet_step env ok c cfg) s (init p) (or_intror Hq)) as [H|H];
    [by right|left].
  unfold returned in Hret. destruct (main (exec env s (init p))); try done.
  injection Hret as <-. by inversion H.
Qed.

Ltac quiet_tac :=
  repeat first
    [ progress simpl
    | progress intros
    | match goal with
      | |- context [match ?r with _ => _ end] => is_var r; destruct r
      end
    | apply quiet_ret; reflexivity
    | apply quiet_process; reflexivity
    | apply quiet_call
    | apply quiet_pipe
    | apply quiet_command
    | apply quiet_stderr
    | apply quiet_get
    | apply quiet_chan
    | apply quiet_go
    | apply quiet_select ].

(** [Close] returns nothing before it has called [Signal]. *)
Lemma Close_quiet (iop : ioPipe) : quiet (λ _ : error, False) (Close iop).
Proof.
  unfold Close, closeProc, closeProc_go, closeProc_signal.
  quiet_tac.
Qed.

(** A launch followed by [Close] returns the result of [Close] only after
    a call on a process. *)
Lemma launch_and_close_quiet (w : Writer) (path : string) (args : list string) :
  quiet (λ res : option error, res = None) (launch_and_close StartProvider w path args).
Proof.
  unfold launch_and_close, StartProvider, makeCommand, start, Close, closeProc,
    closeProc_go, closeProc_signal, deferred_close_in, deferred_close_out.
  quiet_tac.
Qed.

(** A call on a process made on the nil handle is a call through the nil
    pointer. *)
Lemma nil_calls_panic (tr : list event) :
  Forall (process_calls_on NilProcess) tr →
  existsb process_call tr = true → panicked tr = true.
Proof.
  unfold panicked. induction 1 as [|ev tr Hev Htr IH]; simpl; [done|].
  destruct ev as [t [| |p|p|p| | |] r| | | | |]; simpl in *; subst; try done.
Qed.

Lemma within_nil_calls (iop : ioPipe) (tr : list event) :
  is_nil_process (proc iop) = true →
  Forall (within iop) tr → Forall (process_calls_on NilProcess) tr.
Proof.
  intros Hp Htr. eapply Forall_impl; [exact Htr|]. clear Htr. intros ev Hev.
  destruct (proc iop) eqn:Hproc; [|done].
  destruct ev as [t [| |p|p|p| | |] r| | | | |]; simpl in *;
    first [done|congruence].
Qed.

Lemma Close_within (env : environment) (iop : ioPipe) (s : list choice) :
  Forall (within iop) (trace (exec env s (init (Close iop)))).
Proof.
  destruct (Close_partial_runs env iop s) as [H|[H|(cfg & Hst & H)]]; rewrite H.
  - constructor.
  - by repeat constructor.
  - destruct (cp_state_events _ _ _ _ Hst) as (evs & Htr & Hm & Hg).
    rewrite Htr. apply Forall_app. split; [by repeat constructor|].
    apply Forall_forall. intros ev Hev. apply list_elem_of_In, In_by_thread in Hev.
    destruct Hev as [Hev|Hev].
    + destruct Hm as [Hm|[Hm|[Hm|[[r Hm]|[[v Hm]|[Hm|[k' Hm]]]]]]];
        rewrite Hm in Hev; simpl in Hev;
        repeat (destruct Hev as [<-|Hev]; [done|]); done.
    + destruct Hg as [Hg|(w & [Hg|Hg])]; rewrite Hg in Hev; simpl in Hev;
        repeat (destruct Hev as [<-|Hev]; [done|]); done.
Qed.

(** X9.  [Close] on a channel that holds the nil handle never returns:
    under every environment, the run in which the calling thread takes
    its first five steps (the two closes, the channel, the goroutine, the
    signal) panics at [Signal]; and in every run that lives, [Close] has
    not returned and no [Signal], [Wait] or [Kill] has been made. *)
Theorem Close_on_nil_handle_panics (env : environment) (iop : ioPipe) :
  is_nil_process (proc iop) = true →
  run env [RunMain; RunMain; RunMain; RunMain; RunMain] (init (Close iop)) = None
  ∧ ∀ (s : list choice) (cfg : config error),
      run env s (init (Close iop)) = Some cfg →
      returned cfg = None ∧ existsb process_call (trace cfg) = false.
Proof.
  intros Hp. split.
  - destruct iop as [r w p]. simpl in Hp. destruct p; [|done].
    unfold run, panicked. simpl. done.
  - intros s cfg Hrun. apply run_Some in Hrun as [-> Hlive]; [|done].
    assert (existsb process_call (trace (exec env s (init (Close iop)))) = false) as Hno.
    { destruct (existsb process_call (trace (exec env s (init (Close iop))))) eqn:Hex;
        [|done].
      rewrite (nil_calls_panic _ (within_nil_calls iop _ Hp (Close_within env iop s)) Hex)
        in Hlive. done. }
    split; [|done].
    destruct (returned (exec env s (init (Close iop)))) as [res|] eqn:Hret; [|done].
    destruct (quiet_exec env _ _ s res (Close_quiet iop) Hret) as [[]|Hex]. congruence.
Qed.

Lemma Close_on_nil_handle_panics_witness :
  run (env_of all_succeed) [RunMain; RunMain; RunMain; RunMain; RunMain]
    (init (Close (mkIoPipe 2 1 NilProcess)))
  = None
  ∧ ∀ (s : list choice) (cfg : config error),
      run (env_of all_succeed) s (init (Close (mkIoPipe 2 1 NilProcess))) = Some cfg →
      returned cfg = None ∧ existsb process_call (trace cfg) = false.
Proof.
  apply (Close_on_nil_handle_panics (env_of all_succeed) (mkIoPipe 2 1 NilProcess)).
  reflexivity.
Defined.

Lemma StartProvider_close_panics : close_panics StartProvider.
Proof.
  intros env output path args s cfg Hrun.
  apply run_Some in Hrun as [-> Hlive]; [|done].
  pose proof (session_state_trace output path args _
                (session_state_exec env output path args s)) as Hnil.
  assert (existsb process_call
            (trace (exec env s (init (launch_and_close StartProvider output path args))))
          = false) as Hno.
  { destruct (existsb process_call
                (trace (exec env s (init (launch_and_close StartProvider output path args)))))
      eqn:Hex; [|done].
    rewrite (nil_calls_panic _ Hnil Hex) in Hlive. done. }
  split; [done|]. intros e Hret.
  destruct (quiet_exec env _ _ s (Some e) (launch_and_close_quiet output path args) Hret)
    as [?|Hex]; congruence.
Qed.

(** X10.  For each of [StartProvider], [StartProviderCodec] and
    [StartConsumer], with the handle [makeCommand] hands them: in every
    run of a launch followed by [Close] that lives, under every
    environment and schedule, no [Signal], [Wait] or [Kill] has been made
    and [Close] has not returned; and when every call succeeds, the run in
    which the calling thread goes as far as [Signal] panics there.  The
    process [Start] created is never reached. *)
Theorem launched_channel_cannot_be_closed :
  (close_panics StartProvider
   ∧ close_panics StartProviderCodec
   ∧ close_panics StartConsumer)
  ∧ run (env_of all_succeed)
      [RunMain; RunMain; RunMain; RunMain; RunMain; RunMain; RunMain;
       RunMain; RunMain; RunMain; RunMain]
      (init (launch_and_close StartProvider 9 "plugin" []))
    = None
  ∧ trace (exec (env_of all_succeed)
             [RunMain; RunMain; RunMain; RunMain; RunMain; RunMain; RunMain;
              RunMain; RunMain; RunMain]
             (init (launch_and_close StartProvider 9 "plugin" [])))
    = [EvCall Main (StdinPipe 0) None; EvCall Main (StdoutPipe 0) None;
       EvCall Main (Start 0) None; EvCall Main (ReadCloser_Close 2) None;
       EvCall Main (WriteCloser_Close 1) None; EvMakeChan 0; EvGo 0].
Proof.
  split; [|done].
  split; [|split]; exact StartProvider_close_panics.
Qed.

Lemma launched_channel_cannot_be_closed_witness :
  existsb process_call
    (trace (exec (env_of all_succeed)
              [RunMain; RunMain; RunMain; RunMain; RunMain; RunMain; RunMain;
               RunMain; RunMain; RunMain]
              (init (launch_and_close StartConsumer 9 "plugin" []))))
  = false
  ∧ ∀ e, returned (exec (env_of all_succeed)
                     [RunMain; RunMain; RunMain; RunMain; RunMain; RunMain; RunMain;
                      RunMain; RunMain; RunMain]
                     (init (launch_and_close StartConsumer 9 "plugin" [])))
         ≠ Some (Some e).
Proof.
  exact (proj2 (proj2 (proj1 launched_channel_cannot_be_closed)) (env_of all_succeed) 9
           "plugin" []
           [RunMain; RunMain; RunMain; RunMain; RunMain; RunMain; RunMain;
            RunMain; RunMain; RunMain]
           (exec (env_of all_succeed)
              [RunMain; RunMain; RunMain; RunMain; RunMain; RunMain; RunMain;
               RunMain; RunMain; RunMain]
              (init (launch_and_close StartConsumer 9 "plugin" [])))
           eq_refl).
Defined.
